(** * CSV_to_Goodnote: the quiz-table to flashcard conversion

    A shallow embedding of the pure core of [csv_to_goodnote.py]:
    [_clean], [normalize_columns], [make_front_back] and [convert_df],
    together with the fragment of pandas they rely on (column labels,
    [rename], column back-fill, selection by a list of labels, [iterrows]
    and [Series.get]).

    A Python [str] is a sequence of Unicode code points, so it is modelled
    as a list of code points.  The literals of the source are written as
    they appear there and decoded from UTF-8 by [u]. *)

From Stdlib Require Import String Ascii List NArith Bool Arith Lia.
Import ListNotations.

Local Open Scope N_scope.
Local Open Scope list_scope.

(* ================================================================= *)
(** ** Python strings *)

Module PyStr.

(** A code point. *)
Definition char := N.

(** A Python [str]. *)
Definition pystr := list char.

Fixpoint bytes_of_string (s : string) : list N :=
  match s with
  | EmptyString => []
  | String a rest => N_of_ascii a :: bytes_of_string rest
  end.

(** UTF-8 decoding of a well-formed byte sequence (the source file is
    UTF-8).  A truncated trailing sequence decodes to nothing. *)
Fixpoint utf8_decode (bs : list N) : pystr :=
  match bs with
  | [] => []
  | b0 :: r0 =>
      if b0 <? 0x80 then b0 :: utf8_decode r0
      else if b0 <? 0xE0 then
        match r0 with
        | b1 :: r1 =>
            N.lor (N.shiftl (N.land b0 0x1F) 6) (N.land b1 0x3F)
              :: utf8_decode r1
        | _ => []
        end
      else if b0 <? 0xF0 then
        match r0 with
        | b1 :: b2 :: r2 =>
            N.lor (N.shiftl (N.land b0 0x0F) 12)
              (N.lor (N.shiftl (N.land b1 0x3F) 6) (N.land b2 0x3F))
              :: utf8_decode r2
        | _ => []
        end
      else
        match r0 with
        | b1 :: b2 :: b3 :: r3 =>
            N.lor (N.shiftl (N.land b0 0x07) 18)
              (N.lor (N.shiftl (N.land b1 0x3F) 12)
                 (N.lor (N.shiftl (N.land b2 0x3F) 6) (N.land b3 0x3F)))
              :: utf8_decode r3
        | _ => []
        end
  end.

(** A literal of the source as a Python [str]. *)
Definition u (s : string) : pystr := utf8_decode (bytes_of_string s).

(** The one-character string ["\n"]. *)
Definition nl : pystr := [0x0A].

Fixpoint eqb (a b : pystr) : bool :=
  match a, b with
  | [], [] => true
  | x :: a', y :: b' => (x =? y) && eqb a' b'
  | _, _ => false
  end.

(** Membership of a string in a list of strings, [x in l]. *)
Definition mem (x : pystr) (l : list pystr) : bool := existsb (eqb x) l.

(** Truthiness of a [str]: non-empty. *)
Definition truthy (s : pystr) : bool :=
  match s with [] => false | _ :: _ => true end.

(** [sep.join(parts)]. *)
Fixpoint join (sep : pystr) (parts : list pystr) : pystr :=
  match parts with
  | [] => []
  | [p] => p
  | p :: rest => p ++ sep ++ join sep rest
  end.

(** [s.replace(c, "")] for a one-character pattern [c]: every occurrence
    of [c] is deleted. *)
Definition remove_char (c : char) (s : pystr) : pystr :=
  filter (fun x => negb (x =? c)) s.

(** [str.isspace] on one character, as CPython's [_PyUnicode_IsWhitespace]
    lists it: the characters that [str.strip()] takes off. *)
Definition is_space (c : char) : bool :=
  ((0x09 <=? c) && (c <=? 0x0D))
  || ((0x1C <=? c) && (c <=? 0x20))
  || (c =? 0x85) || (c =? 0xA0) || (c =? 0x1680)
  || ((0x2000 <=? c) && (c <=? 0x200A))
  || (c =? 0x2028) || (c =? 0x2029) || (c =? 0x202F)
  || (c =? 0x205F) || (c =? 0x3000).

(** The six ASCII white-space characters (space, tab, line feed, vertical
    tab, form feed, carriage return). *)
Definition is_ascii_space (c : char) : bool :=
  ((0x09 <=? c) && (c <=? 0x0D)) || (c =? 0x20).

Fixpoint drop_while (p : char -> bool) (s : pystr) : pystr :=
  match s with
  | [] => []
  | c :: rest => if p c then drop_while p rest else s
  end.

(** Removal of the leading and the trailing characters that satisfy [p]. *)
Definition strip_by (p : char -> bool) (s : pystr) : pystr :=
  rev (drop_while p (rev (drop_while p s))).

(** [s.strip()]. *)
Definition strip (s : pystr) : pystr := strip_by is_space s.

End PyStr.

Import PyStr.

(* ================================================================= *)
(** ** The fragment of pandas the program uses *)

Module Pandas.

(** A cell of a table read with [dtype=str]: a [str], or [None]. *)
Inductive cell : Type :=
| PyNone
| PyStr (s : pystr).

(** A [DataFrame]: the column labels (duplicates are allowed, as in
    pandas) and the rows, each holding one cell per column. *)
Record DataFrame : Type := mkDataFrame {
  columns : list pystr;
  rows : list (list cell)
}.

(** Every row has one cell per column. *)
Definition rectangular (df : DataFrame) : Prop :=
  Forall (fun r => length r = length (columns df)) (rows df).

(** [len(df)]. *)
Definition len (df : DataFrame) : nat := length (rows df).

(** [df.columns = labels]. *)
Definition set_columns (labels : list pystr) (df : DataFrame) : DataFrame :=
  mkDataFrame labels (rows df).

(** [df.rename(columns={old: new}, inplace=True)]: every column labelled
    [old] is relabelled; a table without such a column is left as it is. *)
Definition rename_columns (old new : pystr) (df : DataFrame) : DataFrame :=
  mkDataFrame (map (fun x => if eqb x old then new else x) (columns df))
              (rows df).

(** [df[c] = v] for a label [c] that is not yet a column of [df] (the
    program guards the assignment with [c not in df.columns]): a new last
    column holding [v] in every row. *)
Definition add_column (c : pystr) (v : cell) (df : DataFrame) : DataFrame :=
  mkDataFrame (columns df ++ [c]) (map (fun r => r ++ [v]) (rows df)).

(** A [Series] as [iterrows] yields it: the cells of one row under the
    column labels. *)
Definition Series : Type := list (pystr * cell).

Definition labelled (k : pystr) (lv : pystr * cell) : bool := eqb k (fst lv).

(** The cells of a row that stand under the label [k], in column order. *)
Definition cells_of (k : pystr) (s : Series) : list cell :=
  map snd (filter (labelled k) s).

(** [df[keys]] for a list of labels: [KeyError] ([None]) when a key is not
    a column; otherwise, key after key, every column that carries the key,
    in column order (pandas keeps all the columns of a duplicated label). *)
Definition getitem_list (keys : list pystr) (df : DataFrame)
  : option DataFrame :=
  if forallb (fun k => mem k (columns df)) keys then
    Some (mkDataFrame
            (flat_map (fun k => filter (eqb k) (columns df)) keys)
            (map (fun r =>
                    flat_map (fun k => cells_of k (combine (columns df) r))
                             keys)
                 (rows df)))
  else None.

(** [df.iterrows()], without the row index. *)
Definition iterrows (df : DataFrame) : list Series :=
  map (fun r => combine (columns df) r) (rows df).

(** What [Series.get] returns. *)
Inductive pyobj : Type :=
| Scalar (c : cell)
| SubSeries (s : Series).

(** [row.get(key, default)]: the default when no label is [key], the cell
    when exactly one is, and the sub-series of all of them otherwise. *)
Definition series_get (row : Series) (key : pystr) (default : cell) : pyobj :=
  match filter (labelled key) row with
  | [] => Scalar default
  | [lv] => Scalar (snd lv)
  | items => SubSeries items
  end.

End Pandas.

Import Pandas.

(* ================================================================= *)
(** ** The program *)

Definition REQUIRED : list pystr :=
  map u ["問題文"; "選択肢1"; "選択肢2"; "選択肢3"; "選択肢4"; "選択肢5";
         "正解"; "科目分類"; "リンクURL"]%string.

(** The dict [ALIAS], in insertion order. *)
Definition ALIAS : list (pystr * list pystr) :=
  map (fun e => (u (fst e), map u (snd e)))
  [ ("問題文",  ["設問"; "問題"; "本文"]);
    ("選択肢1", ["選択肢Ａ"; "選択肢a"; "A"; "ａ"]);
    ("選択肢2", ["選択肢Ｂ"; "選択肢b"; "B"; "ｂ"]);
    ("選択肢3", ["選択肢Ｃ"; "選択肢c"; "C"; "ｃ"]);
    ("選択肢4", ["選択肢Ｄ"; "選択肢d"; "D"; "ｄ"]);
    ("選択肢5", ["選択肢Ｅ"; "選択肢e"; "E"; "ｅ"]);
    ("正解",    ["解答"; "答え"; "ans"; "answer"]);
    ("科目分類", ["分類"; "科目"; "カテゴリ"; "カテゴリー"]);
    ("リンクURL", ["画像URL"; "画像リンク"; "リンク"; "画像Link"]) ]%string.

(** [_clean]: [None] gives the empty string; otherwise the byte-order
    marks go, then [strip()], then the full-width spaces go. *)
Definition _clean (s : cell) : pystr :=
  match s with
  | PyNone => []
  | PyStr s => remove_char 0x3000 (strip (remove_char 0xFEFF s))
  end.

(** The inner loop of [normalize_columns]: the first candidate that is in
    [colset]. *)
Fixpoint first_candidate (cands colset : list pystr) : option pystr :=
  match cands with
  | [] => None
  | c :: rest => if mem c colset then Some c else first_candidate rest colset
  end.

(** One turn of the loop over [ALIAS.items()], on the table and [colset]. *)
Definition alias_step (st : DataFrame * list pystr)
                      (entry : pystr * list pystr)
  : DataFrame * list pystr :=
  let (df, colset) := st in
  let (canon, cands) := entry in
  if mem canon colset then st
  else match first_candidate cands colset with
       | Some c => (rename_columns c canon df, canon :: colset)
       | None => st
       end.

(** The table after the header is cleaned and the aliases are renamed. *)
Definition resolve_aliases (df : DataFrame) : DataFrame :=
  let df := set_columns (map (fun c => _clean (PyStr c)) (columns df)) df in
  let colset := columns df in
  fst (fold_left alias_step ALIAS (df, colset)).

(** One turn of the loop over [REQUIRED] that adds the missing columns. *)
Definition backfill_step (df : DataFrame) (c : pystr) : DataFrame :=
  if mem c (columns df) then df else add_column c (PyStr []) df.

Definition normalize_columns (df : DataFrame) : option DataFrame :=
  let df := resolve_aliases df in
  let df := fold_left backfill_step REQUIRED df in
  getitem_list REQUIRED df.

(** Python exceptions are modelled by [None]. *)
Definition bind {A B : Type} (m : option A) (k : A -> option B) : option B :=
  match m with
  | Some a => k a
  | None => None
  end.

Notation "x <- m ;; k" := (bind m (fun x => k))
  (at level 61, m at next level, right associativity).

(** A list comprehension whose element expression may raise. *)
Fixpoint traverse {A B : Type} (f : A -> option B) (l : list A)
  : option (list B) :=
  match l with
  | [] => Some []
  | a :: rest =>
      b <- f a ;;
      bs <- traverse f rest ;;
      Some (b :: bs)
  end.

Fixpoint enumerate_from {A : Type} (i : nat) (l : list A) : list (nat * A) :=
  match l with
  | [] => []
  | a :: rest => (i, a) :: enumerate_from (S i) rest
  end.

(** [enumerate(l)]. *)
Definition enumerate {A : Type} (l : list A) : list (nat * A) :=
  enumerate_from 0 l.

(** The labels of the five choices: letters for ["ABC"], digits for any
    other value of [numbering]. *)
Definition labels_for (numbering : pystr) : list pystr :=
  if eqb numbering (u "ABC")
  then map u ["A"; "B"; "C"; "D"; "E"]%string
  else map u ["1"; "2"; "3"; "4"; "5"]%string.

(** [f"{labels[i]}. {txt}"]; [labels[i]] raises [IndexError] out of range. *)
Definition choice_line (labels : list pystr) (it : nat * pystr)
  : option pystr :=
  l <- nth_error labels (fst it) ;;
  Some (l ++ u ". " ++ snd it).

(** [[f"{labels[i]}. {txt}" for i, txt in enumerate(choices) if txt]]. *)
Definition choice_lines (labels choices : list pystr) : option (list pystr) :=
  traverse (choice_line labels)
           (filter (fun it => truthy (snd it)) (enumerate choices)).

Section Formatter.

(** [str(x)] for a [Series] [x], pandas' rendering of a series.  It is
    reached only when a row carries a label more than once. *)
Variable series_str : Series -> pystr.

(** [_clean] looks at its argument through [is None] and [str()] only: of
    a sub-series, which is not [None], it sees the rendering. *)
Definition as_cell (o : pyobj) : cell :=
  match o with
  | Scalar c => c
  | SubSeries s => PyStr (series_str s)
  end.

(** [_clean(row.get(key, ""))]. *)
Definition clean_field (row : Series) (key : string) : pystr :=
  _clean (as_cell (series_get row (u key) (PyStr []))).

Definition make_front_back (row : Series) (numbering : pystr)
                           (add_labels add_meta : bool)
  : option (pystr * pystr) :=
  let q := clean_field row "問題文" in
  let choices :=
    [ clean_field row "選択肢1";
      clean_field row "選択肢2";
      clean_field row "選択肢3";
      clean_field row "選択肢4";
      clean_field row "選択肢5" ] in
  let labels := labels_for numbering in
  choice_lines <- choice_lines labels choices ;;
  let front :=
    match choice_lines with
    | [] => q
    | _ :: _ => q ++ nl ++ nl ++ join nl choice_lines
    end in
  let ans := clean_field row "正解" in
  let back := if add_labels then u "正解: " ++ ans else ans in
  let back :=
    if add_meta then
      let subject := clean_field row "科目分類" in
      let link := clean_field row "リンクURL" in
      let extra := join nl (filter truthy [subject; link]) in
      if truthy extra then back ++ nl ++ nl ++ extra else back
    else back in
  Some (front, back).

(** One turn of the loop of [convert_df], on [fronts] and [backs]. *)
Definition convert_step (numbering : pystr) (add_labels add_meta : bool)
                        (acc : option (list pystr * list pystr))
                        (row : Series)
  : option (list pystr * list pystr) :=
  fb <- acc ;;
  card <- make_front_back row numbering add_labels add_meta ;;
  Some (fst fb ++ [fst card], snd fb ++ [snd card]).

(** [pd.DataFrame({"Front": fronts, "Back": backs})]. *)
Definition front_back_table (fronts backs : list pystr) : DataFrame :=
  mkDataFrame [u "Front"; u "Back"]
              (map (fun fb => [PyStr (fst fb); PyStr (snd fb)])
                   (combine fronts backs)).

Definition convert_df (df : DataFrame) (numbering : pystr)
                      (add_labels add_meta : bool)
  : option DataFrame :=
  fb <- fold_left (convert_step numbering add_labels add_meta)
                  (iterrows df) (Some ([], [])) ;;
  Some (front_back_table (fst fb) (snd fb)).

End Formatter.

(* ================================================================= *)
(** ** The text normalizer as the specification words it *)

Module Reference.

(** Trimming of the ASCII white space at both ends. *)
Definition trim_ascii (s : pystr) : pystr := strip_by is_ascii_space s.

(** The normalizer of the specification: null is the empty string; every
    U+FEFF is removed; every U+3000 is removed; the ASCII white space at
    the ends is trimmed. *)
Definition normalize (v : cell) : pystr :=
  match v with
  | PyNone => []
  | PyStr s => trim_ascii (remove_char 0x3000 (remove_char 0xFEFF s))
  end.

(** The same with the trim before the removal of the full-width spaces. *)
Definition normalize_trim_first (v : cell) : pystr :=
  match v with
  | PyNone => []
  | PyStr s => remove_char 0x3000 (trim_ascii (remove_char 0xFEFF s))
  end.

(** The normalizer with the trim of [str.strip()], which takes off every
    character of [is_space], after both removals. *)
Definition normalize_unicode (v : cell) : pystr :=
  match v with
  | PyNone => []
  | PyStr s => strip (remove_char 0x3000 (remove_char 0xFEFF s))
  end.

End Reference.

(* ================================================================= *)
(** ** Sample tables and records *)

(** A record with the nine canonical fields. *)
Definition record (question c1 c2 c3 c4 c5 answer subject link : string)
  : Series :=
  combine REQUIRED
          (map (fun s => PyStr (u s))
               [question; c1; c2; c3; c4; c5; answer; subject; link]).

Definition japan : Series :=
  record "Capital of Japan?" "Tokyo" "Osaka" "" "" "" "Tokyo" "Geography" "".

Definition gaps : Series :=
  record "Q" "" "B" "" "D" "" "B" "" "".

(** The choice lines read off position by position: the label and the
    text of each position whose text is not empty, in order. *)
Fixpoint positional_lines (labels choices : list pystr) : list pystr :=
  match labels, choices with
  | l :: ls, c :: cs =>
      if truthy c then (l ++ u ". " ++ c) :: positional_lines ls cs
      else positional_lines ls cs
  | _, _ => []
  end.

(** The five normalized choices of a record. *)
Definition choices_of (series_str : Series -> pystr) (row : Series)
  : list pystr :=
  [ clean_field series_str row "選択肢1";
    clean_field series_str row "選択肢2";
    clean_field series_str row "選択肢3";
    clean_field series_str row "選択肢4";
    clean_field series_str row "選択肢5" ].

(** The Front of a question and its choice lines. *)
Definition front_of (q : pystr) (lines : list pystr) : pystr :=
  match lines with
  | [] => q
  | _ :: _ => q ++ nl ++ nl ++ join nl lines
  end.

(** The Back before the metadata block. *)
Definition labelled_answer (add_labels : bool) (ans : pystr) : pystr :=
  if add_labels then u "正解: " ++ ans else ans.

(* ================================================================= *)
(** ** The column resolver, phase by phase *)

(** The labels that the back-fill loop over [ks] appends to [cols]. *)
Fixpoint missing (ks cols : list pystr) : list pystr :=
  match ks with
  | [] => []
  | k :: rest =>
      if mem k cols then missing rest cols
      else k :: missing rest (cols ++ [k])
  end.

(** The output labels for the key [k]: the columns that carry it, or one
    new column when there is none. *)
Definition label_group (cols : list pystr) (k : pystr) : list pystr :=
  match filter (eqb k) cols with
  | [] => [k]
  | g => g
  end.

(** The output cells of a row for the key [k]: the cells under it, or one
    empty string when there is none. *)
Definition cell_group (cols : list pystr) (r : list cell) (k : pystr)
  : list cell :=
  match cells_of k (combine cols r) with
  | [] => [PyStr []]
  | g => g
  end.

(** The cell of a row under the label [k], the empty string when no
    column carries [k]. *)
Definition field (cols : list pystr) (r : list cell) (k : pystr) : cell :=
  match cells_of k (combine cols r) with
  | [] => PyStr []
  | v :: _ => v
  end.

(** No canonical name labels two columns once the header is cleaned and
    the aliases are renamed. *)
Definition unambiguous (df : DataFrame) : Prop :=
  forall c, In c REQUIRED ->
    (length (filter (eqb c) (columns (resolve_aliases df))) <= 1)%nat.

(** The cleaned header of a table. *)
Definition header (df : DataFrame) : list pystr :=
  map (fun c => _clean (PyStr c)) (columns df).

(** The label that the alias loop over the table [T] gives to a column
    labelled [x], in a header [cols]. *)
Fixpoint resolve (T : list (pystr * list pystr)) (cols : list pystr)
                 (x : pystr) : pystr :=
  match T with
  | [] => x
  | (k, cs) :: rest =>
      if mem k cols then resolve rest cols x
      else match first_candidate cs cols with
           | Some c => if eqb x c then k else resolve rest cols x
           | None => resolve rest cols x
           end
  end.

(** [x] is neither a key nor an alias of the table [T]. *)
Definition fresh (x : pystr) (T : list (pystr * list pystr)) : Prop :=
  forall e, In e T -> x <> fst e /\ ~ In x (snd e).

(** The key and the aliases of every entry are new to the entries that
    follow it. *)
Fixpoint table_ok (T : list (pystr * list pystr)) : Prop :=
  match T with
  | [] => True
  | e :: rest =>
      fresh (fst e) rest
      /\ (forall a, In a (snd e) -> fresh a rest)
      /\ table_ok rest
  end.

Definition freshb (x : pystr) (T : list (pystr * list pystr)) : bool :=
  forallb (fun e => negb (eqb x (fst e)) && negb (mem x (snd e))) T.

Fixpoint table_okb (T : list (pystr * list pystr)) : bool :=
  match T with
  | [] => true
  | e :: rest =>
      freshb (fst e) rest
      && forallb (fun a => freshb a rest) (snd e)
      && table_okb rest
  end.

(** Two lists of names hold the same keys and aliases of [T]. *)
Definition agree (T : list (pystr * list pystr)) (l l' : list pystr) : Prop :=
  forall e, In e T ->
    mem (fst e) l = mem (fst e) l'
    /\ forall a, In a (snd e) -> mem a l = mem a l'.

(** The card of a record, in closed form. *)
Definition card_of (series_str : Series -> pystr) (row : Series)
                   (numbering : pystr) (add_labels add_meta : bool)
  : pystr * pystr :=
  (front_of (clean_field series_str row "問題文")
            (positional_lines (labels_for numbering)
                              (choices_of series_str row)),
   let back :=
     labelled_answer add_labels (clean_field series_str row "正解") in
   if add_meta then
     let extra :=
       join nl (filter truthy [clean_field series_str row "科目分類";
                               clean_field series_str row "リンクURL"]) in
     if truthy extra then back ++ nl ++ nl ++ extra else back
   else back).

(** A header in which two names clean to the canonical "問題文". *)
Definition duplicated_question : DataFrame :=
  mkDataFrame [u "問題文"; u " 問題文"] [[PyStr (u "x"); PyStr (u "y")]].

(** A table whose header uses the alias "answer" for "正解". *)
Definition answer_alias_table : DataFrame :=
  mkDataFrame (map u ["問題文"; "選択肢1"; "選択肢2"; "選択肢3"; "選択肢4";
                      "選択肢5"; "answer"; "科目分類"; "extra"]%string)
              [map (fun s => PyStr (u s))
                   ["Q1"; "a"; "b"; "c"; "d"; "e"; "a"; "S"; "zzz"]%string;
               map (fun s => PyStr (u s))
                   ["Q2"; "f"; "g"; "h"; "i"; "j"; "g"; "T"; "yyy"]%string].

Definition geography_with_link : Series :=
  record "Capital of Japan?" "Tokyo" "Osaka" "" "" "" "Tokyo" "Geography"
         "http://example.org/japan".

(* ================================================================= *)
(** ** Normal forms of strings, and the script around the functions *)

(** The characters that [_clean] can reduce to nothing: the white space
    of [str.strip()] and the byte-order mark. *)
Definition blank_char (c : char) : bool := is_space c || (c =? 0xFEFF).

(** The first and the last character of [s], if any, fail [p]. *)
Definition edges_fail (p : char -> bool) (s : pystr) : Prop :=
  (forall c, hd_error s = Some c -> p c = false)
  /\ (forall c, hd_error (rev s) = Some c -> p c = false).

(** A string on which [_clean] has nothing left to do: no byte-order
    mark, no full-width space, no white space at either end. *)
Definition clean_form (s : pystr) : Prop :=
  ~ In 0xFEFF s /\ ~ In 0x3000 s /\ edges_fail is_space s.

(** How the script ends once the CSV file is read: it stops on the
    message about missing columns, or it offers the converted table. *)
Inductive outcome : Type :=
| Stopped (missing : list pystr)
| Converted (out_df : DataFrame).

Section Script.

Variable series_str : Series -> pystr.

(** The script from [df = normalize_columns(df_raw)] to
    [out_df = convert_df(df, ...)]: the columns are resolved; if a
    required column is missing the script stops; otherwise the table is
    converted. *)
Definition script (df_raw : DataFrame) (numbering : pystr)
                  (add_labels add_meta : bool) : option outcome :=
  df <- normalize_columns df_raw ;;
  let missing := filter (fun c => negb (mem c (columns df))) REQUIRED in
  match missing with
  | _ :: _ => Some (Stopped missing)
  | [] =>
      out_df <- convert_df series_str df numbering add_labels add_meta ;;
      Some (Converted out_df)
  end.

End Script.

(** A string without byte-order mark and without full-width space. *)
Definition markless (s : pystr) : bool :=
  forallb (fun c => negb (c =? 0xFEFF) && negb (c =? 0x3000)) s.

(** The metadata block of Back for a normalized subject and link: nothing
    when both are empty, otherwise a blank line and the non-empty ones. *)
Definition metadata_block (subject link : pystr) : pystr :=
  match subject, link with
  | [], [] => []
  | _ :: _, [] => nl ++ nl ++ subject
  | [], _ :: _ => nl ++ nl ++ link
  | _ :: _, _ :: _ => nl ++ nl ++ subject ++ nl ++ link
  end.

(** A record none of whose fields holds anything. *)
Definition blank_record : Series :=
  record "" "" "" "" "" "" "" "" "".

(** A table whose header names nothing that the resolver knows. *)
Definition foreign_table : DataFrame :=
  mkDataFrame [u "id"; u "text"]
              [[PyStr (u "1"); PyStr (u "one")];
               [PyStr (u "2"); PyStr (u "two")]].

(* ================================================================= *)
(** ** Strings and lists *)

Lemma eqb_eq (a b : pystr) : eqb a b = true <-> a = b.
Proof.
  revert b; induction a as [|x a IH]; intros [|y b]; simpl;
    try (split; [discriminate | discriminate]); try tauto.
  rewrite andb_true_iff, N.eqb_eq, IH.
  split; [intros [-> ->]; reflexivity | intros H; inversion H; auto].
Qed.

Lemma eqb_refl (a : pystr) : eqb a a = true.
Proof. apply eqb_eq; reflexivity. Qed.

Lemma eqb_neq (a b : pystr) : eqb a b = false <-> a <> b.
Proof.
  rewrite <- eqb_eq. destruct (eqb a b); split; congruence.
Qed.

Lemma eqb_sym (a b : pystr) : eqb a b = eqb b a.
Proof.
  destruct (eqb a b) eqn:E.
  - apply eqb_eq in E; subst; symmetry; apply eqb_refl.
  - destruct (eqb b a) eqn:E'; auto.
    apply eqb_eq in E'; subst. rewrite eqb_refl in E; discriminate.
Qed.

Lemma mem_In (x : pystr) (l : list pystr) : mem x l = true <-> In x l.
Proof.
  unfold mem. rewrite existsb_exists. split.
  - intros (y & Hy & E). apply eqb_eq in E; subst; assumption.
  - intros H; exists x; split; [assumption | apply eqb_refl].
Qed.

Lemma mem_not_In (x : pystr) (l : list pystr) : mem x l = false <-> ~ In x l.
Proof.
  rewrite <- mem_In. destruct (mem x l); split; congruence.
Qed.

(* ================================================================= *)
(** ** The text normalizer *)

Section Trimming.

Variable p : char -> bool.
Variable keep : char -> bool.

(** Every character that the filter deletes is one that the trim takes
    off. *)
Hypothesis deleted_trimmed : forall c, keep c = false -> p c = true.

Lemma drop_while_filter (s : pystr) :
  drop_while p (filter keep s) = filter keep (drop_while p s).
Proof.
  induction s as [|c s IH]; simpl; auto.
  destruct (keep c) eqn:K; simpl.
  - destruct (p c) eqn:P; simpl; auto. rewrite K; reflexivity.
  - rewrite (deleted_trimmed c K); assumption.
Qed.

Lemma filter_rev_comm (s : pystr) : filter keep (rev s) = rev (filter keep s).
Proof.
  induction s as [|c s IH]; simpl; auto.
  rewrite filter_app, IH; simpl.
  destruct (keep c); simpl; auto using app_nil_r.
Qed.

Lemma strip_by_filter (s : pystr) :
  strip_by p (filter keep s) = filter keep (strip_by p s).
Proof.
  unfold strip_by.
  rewrite drop_while_filter, <- filter_rev_comm, drop_while_filter,
    <- filter_rev_comm.
  reflexivity.
Qed.

End Trimming.

Lemma fullwidth_space_is_space (c : char) :
  negb (c =? 0x3000) = false -> is_space c = true.
Proof.
  intros H. apply negb_false_iff, N.eqb_eq in H; subst; reflexivity.
Qed.

(** C2 (as amended): for every string or null value, [_clean] agrees with
    the reference normalizer that maps null to the empty string, removes
    every U+FEFF, removes every U+3000 and trims, at both ends, the white
    space of [str.strip()] (the characters of [str.isspace], among them
    U+00A0 and U+3000).  [_clean] trims before it removes the full-width
    spaces and the reference after, so the order of the two does not
    change the result. *)
Theorem clean_is_unicode_normalize (v : cell) :
  _clean v = Reference.normalize_unicode v.
Proof.
  destruct v as [|s]; simpl; auto.
  unfold strip, remove_char.
  symmetry; apply strip_by_filter, fullwidth_space_is_space.
Qed.

(** C2 (as stated) fails on a string that starts with a no-break space:
    [strip()] takes U+00A0 off, an ASCII trim leaves it. *)
Lemma clean_trims_no_break_space :
  _clean (PyStr [0xA0; 0x78]) = [0x78]
  /\ Reference.normalize (PyStr [0xA0; 0x78]) = [0xA0; 0x78]
  /\ _clean (PyStr [0xA0; 0x78]) <> Reference.normalize (PyStr [0xA0; 0x78]).
Proof.
  repeat split; try reflexivity. vm_compute; discriminate.
Qed.

(** With an ASCII trim the order of the trim and the removal of the
    full-width spaces does matter. *)
Lemma ascii_trim_order_matters :
  Reference.normalize (PyStr [0x3000; 0x20; 0x78]) = [0x78]
  /\ Reference.normalize_trim_first (PyStr [0x3000; 0x20; 0x78])
     = [0x20; 0x78].
Proof. split; reflexivity. Qed.

(* ================================================================= *)
(** ** The card formatter *)

Lemma skipn_nth_error {A : Type} (l : list A) (i : nat) (x : A) :
  nth_error l i = Some x -> skipn i l = x :: skipn (S i) l.
Proof.
  revert i; induction l as [|a l IH]; intros [|i] H; simpl in *;
    try discriminate.
  - inversion H; reflexivity.
  - apply IH; assumption.
Qed.

Lemma choice_lines_from (labels choices : list pystr) (i : nat) :
  (i + length choices <= length labels)%nat ->
  traverse (choice_line labels)
           (filter (fun it => truthy (snd it)) (enumerate_from i choices))
  = Some (positional_lines (skipn i labels) choices).
Proof.
  revert i; induction choices as [|c cs IH]; intros i Hlen.
  - simpl. destruct (skipn i labels); reflexivity.
  - cbn [length] in Hlen.
    destruct (nth_error labels i) as [l|] eqn:Hl.
    2:{ apply nth_error_None in Hl; lia. }
    rewrite (skipn_nth_error _ _ _ Hl).
    cbn [enumerate_from filter snd positional_lines].
    destruct (truthy c).
    + cbn [traverse]. unfold choice_line at 1. cbn [fst snd].
      rewrite Hl, IH by lia. reflexivity.
    + apply IH; lia.
Qed.

Lemma choice_lines_positional (labels choices : list pystr) :
  (length choices <= length labels)%nat ->
  choice_lines labels choices = Some (positional_lines labels choices).
Proof.
  intros H. unfold choice_lines, enumerate.
  rewrite choice_lines_from by (simpl; lia). reflexivity.
Qed.

Lemma labels_for_length (numbering : pystr) :
  length (labels_for numbering) = 5%nat.
Proof. unfold labels_for; destruct (eqb _ _); reflexivity. Qed.

Lemma choice_lines_of_row (series_str : Series -> pystr) (row : Series)
                          (numbering : pystr) :
  choice_lines (labels_for numbering) (choices_of series_str row)
  = Some (positional_lines (labels_for numbering)
                           (choices_of series_str row)).
Proof.
  apply choice_lines_positional. rewrite labels_for_length. simpl; lia.
Qed.

(** The formatter never raises, and its two results in closed form. *)
Lemma make_front_back_eq (series_str : Series -> pystr) (row : Series)
                         (numbering : pystr) (add_labels add_meta : bool) :
  make_front_back series_str row numbering add_labels add_meta
  = Some (card_of series_str row numbering add_labels add_meta).
Proof.
  unfold make_front_back.
  change [clean_field series_str row "選択肢1";
          clean_field series_str row "選択肢2";
          clean_field series_str row "選択肢3";
          clean_field series_str row "選択肢4";
          clean_field series_str row "選択肢5"]
    with (choices_of series_str row).
  rewrite choice_lines_of_row. reflexivity.
Qed.

(** C1: the end-to-end scenario.  The record "Capital of Japan?" with the
    choices Tokyo and Osaka, the answer Tokyo and the subject Geography,
    formatted with digits, the answer label and the metadata, gives the
    Front "Capital of Japan?\n\n1. Tokyo\n2. Osaka" and the Back
    "正解: Tokyo\n\nGeography". *)
Theorem end_to_end_scenario (series_str : Series -> pystr) :
  make_front_back series_str japan (u "123") true true
  = Some (u "Capital of Japan?" ++ nl ++ nl
            ++ u "1. Tokyo" ++ nl ++ u "2. Osaka",
          u "正解: Tokyo" ++ nl ++ nl ++ u "Geography").
Proof. vm_compute. reflexivity. Qed.

(** C5: the choices whose normalized text is empty are dropped and every
    other choice keeps the label of its own position: the choice lines of
    any record are [positional_lines] of the five labels and the five
    normalized choices, and Front is the question followed by them.  For
    choice2 = "B" and choice4 = "D" alone, with letters, the lines are
    exactly "B. B" and "D. D". *)
Theorem choice_labels_keep_position
    (series_str : Series -> pystr) (row : Series) (numbering : pystr)
    (add_labels add_meta : bool) :
  choice_lines (labels_for numbering) (choices_of series_str row)
  = Some (positional_lines (labels_for numbering) (choices_of series_str row))
  /\ (exists back,
        make_front_back series_str row numbering add_labels add_meta
        = Some (front_of (clean_field series_str row "問題文")
                         (positional_lines (labels_for numbering)
                                           (choices_of series_str row)),
                back))
  /\ choices_of series_str gaps = map u [""; "B"; ""; "D"; ""]%string
  /\ choice_lines (labels_for (u "ABC")) (choices_of series_str gaps)
     = Some [u "B. B"; u "D. D"]
  /\ positional_lines (map u ["A"; "B"; "C"; "D"; "E"]%string)
                      (map u [""; "B"; ""; "D"; ""]%string)
     = [u "B. B"; u "D. D"].
Proof.
  split; [apply choice_lines_of_row|].
  split; [rewrite make_front_back_eq; unfold card_of; eexists; reflexivity|].
  repeat split; vm_compute; reflexivity.
Qed.

Lemma card_of_back (series_str : Series -> pystr) (row : Series)
                    (numbering : pystr) (add_labels add_meta : bool) :
  snd (card_of series_str row numbering add_labels add_meta)
  = labelled_answer add_labels (clean_field series_str row "正解")
      ++ (if add_meta
          then metadata_block (clean_field series_str row "科目分類")
                              (clean_field series_str row "リンクURL")
          else []).
Proof.
  unfold card_of. cbn [snd].
  destruct add_meta; [|rewrite app_nil_r; reflexivity].
  destruct (clean_field series_str row "科目分類") as [|a s],
           (clean_field series_str row "リンクURL") as [|b l]; simpl;
    try reflexivity.
  rewrite app_nil_r; reflexivity.
Qed.

Lemma make_front_back_with_labels
    (series_str : Series -> pystr) (row : Series) (numbering : pystr)
    (add_labels add_meta : bool) (labels : list pystr) :
  labels_for numbering = labels ->
  choice_lines (labels_for numbering) (choices_of series_str row)
  = Some (positional_lines labels (choices_of series_str row))
  /\ make_front_back series_str row numbering add_labels add_meta
     = Some (front_of (clean_field series_str row "問題文")
                      (positional_lines labels (choices_of series_str row)),
             labelled_answer add_labels (clean_field series_str row "正解")
               ++ (if add_meta
                   then metadata_block
                          (clean_field series_str row "科目分類")
                          (clean_field series_str row "リンクURL")
                   else [])).
Proof.
  intros E. split.
  - rewrite choice_lines_of_row, E. reflexivity.
  - rewrite make_front_back_eq, <- card_of_back with (numbering := numbering).
    unfold card_of at 1. rewrite E. reflexivity.
Qed.

(** C9: the formatter takes the letters exactly when [numbering] is
    "ABC".  For every other value, "123" or not, the labels are the
    digits 1 to 5: the choice lines are the non-empty choices, each
    behind the digit of its position and ". ", and Front is the question
    followed by these lines (five choices a to e give "1. a" to "5. e").
    For "ABC" the same holds with the letters A to E, and the two label
    lists differ. *)
Theorem digits_unless_ABC
    (series_str : Series -> pystr) (row : Series) (numbering : pystr)
    (add_labels add_meta : bool) :
  let digits := map u ["1"; "2"; "3"; "4"; "5"]%string in
  let letters := map u ["A"; "B"; "C"; "D"; "E"]%string in
  let q := clean_field series_str row "問題文" in
  let choices := choices_of series_str row in
  let back :=
    labelled_answer add_labels (clean_field series_str row "正解")
      ++ (if add_meta
          then metadata_block (clean_field series_str row "科目分類")
                              (clean_field series_str row "リンクURL")
          else []) in
  (numbering <> u "ABC" ->
     labels_for numbering = digits
     /\ choice_lines (labels_for numbering) choices
        = Some (positional_lines digits choices)
     /\ make_front_back series_str row numbering add_labels add_meta
        = Some (front_of q (positional_lines digits choices), back))
  /\ (numbering = u "ABC" ->
       labels_for numbering = letters
       /\ choice_lines (labels_for numbering) choices
          = Some (positional_lines letters choices)
       /\ make_front_back series_str row numbering add_labels add_meta
          = Some (front_of q (positional_lines letters choices), back))
  /\ (labels_for numbering = letters <-> numbering = u "ABC")
  /\ digits <> letters
  /\ positional_lines digits (map u ["a"; "b"; "c"; "d"; "e"]%string)
     = map u ["1. a"; "2. b"; "3. c"; "4. d"; "5. e"]%string.
Proof.
  intros digits letters q choices back.
  assert (D : numbering <> u "ABC" -> labels_for numbering = digits).
  { intros H. apply eqb_neq in H. unfold labels_for. rewrite H.
    reflexivity. }
  assert (L : numbering = u "ABC" -> labels_for numbering = letters).
  { intros ->. reflexivity. }
  assert (N : digits <> letters) by (vm_compute; discriminate).
  split; [|split; [|split]].
  - intros H. split; [exact (D H)|].
    apply make_front_back_with_labels, D, H.
  - intros H. split; [exact (L H)|].
    apply make_front_back_with_labels, L, H.
  - split; [|exact L].
    intros E. destruct (eqb numbering (u "ABC")) eqn:B.
    + apply eqb_eq; exact B.
    + apply eqb_neq in B. rewrite (D B) in E. contradiction.
  - split; [exact N | reflexivity].
Qed.

Lemma digits_unless_ABC_witness :
  u "xyz" <> u "ABC"
  /\ labels_for (u "xyz") = map u ["1"; "2"; "3"; "4"; "5"]%string
  /\ make_front_back (fun _ => []) japan (u "xyz") true true
     = Some (u "Capital of Japan?" ++ nl ++ nl
               ++ u "1. Tokyo" ++ nl ++ u "2. Osaka",
             u "正解: Tokyo" ++ nl ++ nl ++ u "Geography").
Proof.
  assert (H : u "xyz" <> u "ABC") by (vm_compute; discriminate).
  split; [exact H|].
  destruct (digits_unless_ABC (fun _ => []) japan (u "xyz") true true)
    as [D _].
  destruct (D H) as (E & _ & F).
  split; [exact E|].
  rewrite F. vm_compute. reflexivity.
Defined.

(** C10: with the metadata switched on and both the normalized subject
    and the normalized link non-empty, Back is the answer part, a blank
    line, the subject, a newline and the link, in this order. *)
Theorem metadata_subject_then_link
    (series_str : Series -> pystr) (row : Series) (numbering : pystr)
    (add_labels : bool) :
  clean_field series_str row "科目分類" <> [] ->
  clean_field series_str row "リンクURL" <> [] ->
  exists front,
    make_front_back series_str row numbering add_labels true
    = Some (front,
            labelled_answer add_labels (clean_field series_str row "正解")
              ++ nl ++ nl
              ++ clean_field series_str row "科目分類"
              ++ nl
              ++ clean_field series_str row "リンクURL").
Proof.
  intros Hs Hl. rewrite make_front_back_eq. unfold card_of. eexists.
  destruct (clean_field series_str row "科目分類") as [|a s]; [congruence|].
  destruct (clean_field series_str row "リンクURL") as [|b l]; [congruence|].
  reflexivity.
Qed.

Lemma metadata_subject_then_link_witness :
  exists front,
    make_front_back (fun _ => []) geography_with_link (u "ABC") true true
    = Some (front,
            u "正解: Tokyo" ++ nl ++ nl ++ u "Geography" ++ nl
              ++ u "http://example.org/japan").
Proof.
  apply (metadata_subject_then_link (fun _ => []) geography_with_link
           (u "ABC") true); vm_compute; discriminate.
Defined.

(* ================================================================= *)
(** ** Columns, labels and cells *)

Lemma combine_app_eq {A B : Type} (l1 l2 : list A) (r1 r2 : list B) :
  length l1 = length r1 ->
  combine (l1 ++ l2) (r1 ++ r2) = combine l1 r1 ++ combine l2 r2.
Proof.
  revert r1; induction l1 as [|a l1 IH]; intros [|b r1] H; simpl in *;
    try discriminate; auto.
  f_equal; apply IH; lia.
Qed.

Lemma combine_fst_snd {A B : Type} (l : list (A * B)) :
  combine (map fst l) (map snd l) = l.
Proof.
  induction l as [|[a b] l IH]; simpl; congruence.
Qed.

Lemma flat_map_singleton {A B : Type} (f : A -> B) (l : list A) :
  flat_map (fun x => [f x]) l = map f l.
Proof. induction l; simpl; congruence. Qed.

Lemma cells_of_app (k : pystr) (s1 s2 : Series) :
  cells_of k (s1 ++ s2) = cells_of k s1 ++ cells_of k s2.
Proof. unfold cells_of. rewrite filter_app, map_app; reflexivity. Qed.

Lemma filter_eqb_absent (k : pystr) (l : list pystr) :
  ~ In k l -> filter (eqb k) l = [].
Proof.
  induction l as [|x l IH]; simpl; intros H; auto.
  destruct (eqb k x) eqn:E.
  - apply eqb_eq in E; subst; tauto.
  - apply IH; tauto.
Qed.

Lemma filter_eqb_present (k : pystr) (l : list pystr) :
  In k l -> filter (eqb k) l <> [].
Proof.
  intros H E.
  assert (In k (filter (eqb k) l))
    by (apply filter_In; split; [assumption | apply eqb_refl]).
  rewrite E in *; contradiction.
Qed.

Lemma filter_eqb_all (k x : pystr) (l : list pystr) :
  In x (filter (eqb k) l) -> x = k.
Proof.
  intros H. apply filter_In in H as [_ E]. apply eqb_eq in E; auto.
Qed.

Lemma filter_eqb_NoDup (k : pystr) (l : list pystr) :
  NoDup l -> In k l -> filter (eqb k) l = [k].
Proof.
  induction 1 as [|x l Hx Hl IH]; simpl; intros H; [contradiction|].
  destruct (eqb k x) eqn:E.
  - apply eqb_eq in E; subst.
    rewrite filter_eqb_absent by assumption; reflexivity.
  - apply eqb_neq in E. destruct H; [congruence | auto].
Qed.

Lemma cells_of_absent (k : pystr) (cols : list pystr) (r : list cell) :
  ~ In k cols -> cells_of k (combine cols r) = [].
Proof.
  revert r; induction cols as [|x cols IH]; intros [|v r] H; simpl in *;
    auto.
  unfold cells_of; simpl. unfold labelled at 1; simpl.
  destruct (eqb k x) eqn:E.
  - apply eqb_eq in E; subst; tauto.
  - apply IH; tauto.
Qed.

Lemma cells_of_length (k : pystr) (cols : list pystr) (r : list cell) :
  length cols = length r ->
  length (cells_of k (combine cols r)) = length (filter (eqb k) cols).
Proof.
  revert r; induction cols as [|x cols IH]; intros [|v r] H; simpl in *;
    try discriminate; auto.
  unfold cells_of; simpl. unfold labelled at 1; simpl.
  destruct (eqb k x); simpl; [f_equal|]; apply IH; lia.
Qed.

Lemma cells_of_fill (k : pystr) (ms : list pystr) (v : cell) :
  NoDup ms -> In k ms ->
  cells_of k (combine ms (repeat v (length ms))) = [v].
Proof.
  induction 1 as [|x ms Hx Hms IH]; simpl; intros H; [contradiction|].
  unfold cells_of; simpl. unfold labelled at 1; simpl.
  destruct (eqb k x) eqn:E.
  - apply eqb_eq in E; subst. simpl. f_equal.
    apply cells_of_absent; assumption.
  - apply eqb_neq in E. destruct H; [congruence | auto].
Qed.

(** The cells under [c] of a table whose columns and rows are laid out
    key after key. *)
Lemma cells_of_groups (c : pystr) (G : pystr -> list pystr)
                      (H : pystr -> list cell) (keys : list pystr) :
  (forall k, In k keys -> length (G k) = length (H k)) ->
  (forall k x, In x (G k) -> x = k) ->
  NoDup keys -> In c keys ->
  cells_of c (combine (flat_map G keys) (flat_map H keys)) = H c.
Proof.
  intros Hlen Hlab Hnd. revert Hlen.
  induction Hnd as [|k keys Hk Hnd IH]; intros Hlen Hc; [contradiction|].
  simpl. rewrite combine_app_eq by (apply Hlen; left; reflexivity).
  rewrite cells_of_app.
  assert (Hrest : forall c', ~ In c' keys ->
            cells_of c' (combine (flat_map G keys) (flat_map H keys)) = []).
  { intros c' Hc'. apply cells_of_absent. intros Hin.
    apply in_flat_map in Hin as (k' & Hk' & Hx).
    apply Hlab in Hx; subst; contradiction. }
  destruct Hc as [->|Hc].
  - rewrite Hrest, app_nil_r by assumption.
    assert (E : forall g h, (forall x, In x g -> x = c) ->
              length g = length h -> cells_of c (combine g h) = h).
    { induction g as [|x g IHg]; intros [|v h] Hx Hl; simpl in *;
        try discriminate; auto.
      unfold cells_of; simpl. unfold labelled at 1; simpl.
      rewrite (Hx x (or_introl eq_refl)), eqb_refl; simpl.
      f_equal. apply IHg; auto. }
    apply E; [intros x Hx; eapply Hlab; eassumption
             | apply Hlen; left; reflexivity].
  - rewrite IH by (auto; intros; apply Hlen; right; assumption).
    assert (Hck : c <> k) by (intros ->; contradiction).
    rewrite cells_of_absent; [reflexivity|].
    intros Hin. apply Hck. eapply Hlab. exact Hin.
Qed.

Lemma filter_groups (c : pystr) (G : pystr -> list pystr)
                    (keys : list pystr) :
  (forall k x, In x (G k) -> x = k) ->
  NoDup keys -> In c keys ->
  filter (eqb c) (flat_map G keys) = G c.
Proof.
  intros Hlab Hnd.
  induction Hnd as [|k keys Hk Hnd IH]; intros Hc; [contradiction|].
  simpl. rewrite filter_app.
  destruct Hc as [->|Hc].
  - rewrite (filter_eqb_absent c (flat_map G keys)), app_nil_r.
    + apply forallb_filter_id, forallb_forall. intros x Hx.
      apply eqb_eq. symmetry. eapply Hlab; eassumption.
    + intros Hin. apply in_flat_map in Hin as (k' & Hk' & Hx).
      apply Hlab in Hx; subst; contradiction.
  - rewrite IH by assumption.
    rewrite filter_eqb_absent; [reflexivity|].
    intros Hin. apply Hlab in Hin; subst; contradiction.
Qed.

(* ================================================================= *)
(** ** The back-fill and the selection *)

Lemma missing_In (ks cols : list pystr) (x : pystr) :
  In x (missing ks cols) -> In x ks /\ ~ In x cols.
Proof.
  revert cols; induction ks as [|k ks IH]; simpl; intros cols H;
    [contradiction|].
  destruct (mem k cols) eqn:M.
  - apply IH in H; tauto.
  - apply mem_not_In in M. destruct H as [->|H]; [tauto|].
    apply IH in H as [H1 H2]. split; [tauto|].
    intros Hx; apply H2, in_or_app; tauto.
Qed.

Lemma missing_NoDup (ks cols : list pystr) : NoDup (missing ks cols).
Proof.
  revert cols; induction ks as [|k ks IH]; simpl; intros cols;
    [constructor|].
  destruct (mem k cols); [apply IH|].
  constructor; [|apply IH].
  intros H. apply missing_In in H as [_ H].
  apply H, in_or_app; right; left; reflexivity.
Qed.

Lemma missing_complete (ks cols : list pystr) (k : pystr) :
  In k ks -> In k (cols ++ missing ks cols).
Proof.
  revert cols; induction ks as [|k0 ks IH]; simpl; intros cols H;
    [contradiction|].
  destruct (mem k0 cols) eqn:M.
  - destruct H as [->|H]; [|auto].
    apply in_or_app; left; apply mem_In; assumption.
  - destruct H as [->|H].
    + apply in_or_app; right; left; reflexivity.
    + specialize (IH (cols ++ [k0]) H).
      rewrite <- app_assoc in IH. exact IH.
Qed.

Lemma backfill_eq (ks : list pystr) (df : DataFrame) :
  fold_left backfill_step ks df
  = mkDataFrame
      (columns df ++ missing ks (columns df))
      (map (fun r =>
              r ++ repeat (PyStr []) (length (missing ks (columns df))))
           (rows df)).
Proof.
  revert df; induction ks as [|k ks IH]; intros [cols rs]; simpl.
  - rewrite app_nil_r. f_equal.
    rewrite <- (map_id rs) at 1. apply map_ext; intros r.
    rewrite app_nil_r; reflexivity.
  - unfold backfill_step at 2; simpl.
    destruct (mem k cols) eqn:M.
    + rewrite IH; reflexivity.
    + rewrite IH; unfold add_column; simpl.
      rewrite <- app_assoc; simpl. f_equal.
      rewrite map_map. apply map_ext; intros r.
      rewrite <- app_assoc; reflexivity.
Qed.

Lemma alias_loop_rows (T : list (pystr * list pystr))
                      (st : DataFrame * list pystr) :
  rows (fst (fold_left alias_step T st)) = rows (fst st).
Proof.
  revert st; induction T as [|[k cs] T IH]; intros [df colset]; simpl;
    [reflexivity|].
  rewrite IH.
  destruct (mem k colset); [reflexivity|].
  destruct (first_candidate cs colset); reflexivity.
Qed.

Lemma resolve_aliases_rows (df : DataFrame) :
  rows (resolve_aliases df) = rows df.
Proof. unfold resolve_aliases. rewrite alias_loop_rows; reflexivity. Qed.

Lemma REQUIRED_NoDup : NoDup REQUIRED.
Proof.
  repeat (constructor;
          [apply mem_not_In; vm_compute; reflexivity|]).
  constructor.
Qed.

(** The resolver never raises: after the back-fill every canonical name
    is a column, so the selection finds all its keys. *)
Lemma normalize_columns_selects (df : DataFrame) :
  let cols := columns (resolve_aliases df) in
  let ms := missing REQUIRED cols in
  normalize_columns df
  = Some (mkDataFrame
            (flat_map (fun k => filter (eqb k) (cols ++ ms)) REQUIRED)
            (map (fun r =>
                    flat_map
                      (fun k =>
                         cells_of k
                           (combine (cols ++ ms)
                                    (r ++ repeat (PyStr []) (length ms))))
                      REQUIRED)
                 (rows df))).
Proof.
  intros cols ms. unfold normalize_columns.
  rewrite backfill_eq. fold cols. fold ms.
  unfold getitem_list; cbn [columns rows].
  replace (forallb (fun k => mem k (cols ++ ms)) REQUIRED) with true.
  - rewrite resolve_aliases_rows, map_map. reflexivity.
  - symmetry. apply forallb_forall. intros k Hk.
    apply mem_In, missing_complete; assumption.
Qed.

Lemma alias_loop_length (T : list (pystr * list pystr))
                        (st : DataFrame * list pystr) :
  length (columns (fst (fold_left alias_step T st)))
  = length (columns (fst st)).
Proof.
  revert st; induction T as [|[k cs] T IH]; intros [df colset]; simpl;
    [reflexivity|].
  rewrite IH.
  destruct (mem k colset); [reflexivity|].
  destruct (first_candidate cs colset); simpl; [|reflexivity].
  apply length_map.
Qed.

Lemma resolve_aliases_length (df : DataFrame) :
  length (columns (resolve_aliases df)) = length (columns df).
Proof.
  unfold resolve_aliases. rewrite alias_loop_length; simpl.
  apply length_map.
Qed.

Lemma flat_map_ext_In {A B : Type} (f g : A -> list B) (l : list A) :
  (forall x, In x l -> f x = g x) -> flat_map f l = flat_map g l.
Proof.
  induction l as [|a l IH]; simpl; intros H; [reflexivity|].
  rewrite (H a) by (left; reflexivity).
  rewrite IH by (intros; apply H; right; assumption). reflexivity.
Qed.

Lemma In_dec_mem (k : pystr) (l : list pystr) : In k l \/ ~ In k l.
Proof.
  destruct (mem k l) eqn:M; [left; apply mem_In | right; apply mem_not_In];
    assumption.
Qed.

Lemma label_group_backfilled (cols ks : list pystr) (k : pystr) :
  In k ks ->
  filter (eqb k) (cols ++ missing ks cols) = label_group cols k.
Proof.
  intros Hk. rewrite filter_app. unfold label_group.
  destruct (In_dec_mem k cols) as [Hin|Hout].
  - rewrite (filter_eqb_absent k (missing ks cols)), app_nil_r.
    + pose proof (filter_eqb_present k cols Hin).
      destruct (filter (eqb k) cols); [congruence | reflexivity].
    + intros H; apply missing_In in H; tauto.
  - rewrite (filter_eqb_absent k cols Hout). simpl.
    apply filter_eqb_NoDup; [apply missing_NoDup|].
    pose proof (missing_complete ks cols k Hk) as H.
    apply in_app_or in H; tauto.
Qed.

Lemma cell_group_backfilled (cols ks : list pystr) (r : list cell)
                            (k : pystr) :
  In k ks -> length r = length cols ->
  cells_of k (combine (cols ++ missing ks cols)
                      (r ++ repeat (PyStr []) (length (missing ks cols))))
  = cell_group cols r k.
Proof.
  intros Hk Hlen. rewrite combine_app_eq, cells_of_app by auto.
  unfold cell_group.
  destruct (In_dec_mem k cols) as [Hin|Hout].
  - rewrite (cells_of_absent k (missing ks cols)), app_nil_r.
    + pose proof (cells_of_length k cols r (eq_sym Hlen)) as L.
      pose proof (filter_eqb_present k cols Hin).
      destruct (cells_of k (combine cols r)); [|reflexivity].
      destruct (filter (eqb k) cols); [congruence | discriminate].
    + intros H; apply missing_In in H; tauto.
  - rewrite (cells_of_absent k cols r Hout). simpl.
    apply cells_of_fill; [apply missing_NoDup|].
    pose proof (missing_complete ks cols k Hk) as H.
    apply in_app_or in H; tauto.
Qed.

(** The output of the resolver, key after key. *)
Lemma normalize_columns_groups (df : DataFrame) :
  rectangular df ->
  normalize_columns df
  = Some (mkDataFrame
            (flat_map (label_group (columns (resolve_aliases df))) REQUIRED)
            (map (fun r =>
                    flat_map (cell_group (columns (resolve_aliases df)) r)
                             REQUIRED)
                 (rows df))).
Proof.
  intros Hrect. rewrite normalize_columns_selects. cbv zeta.
  f_equal. f_equal.
  - apply flat_map_ext_In; intros k Hk.
    apply label_group_backfilled; assumption.
  - apply map_ext_in; intros r Hr.
    apply flat_map_ext_In; intros k Hk.
    apply cell_group_backfilled; [assumption|].
    rewrite resolve_aliases_length.
    unfold rectangular in Hrect. rewrite Forall_forall in Hrect. auto.
Qed.

Lemma label_group_single (cols : list pystr) (k : pystr) :
  (length (filter (eqb k) cols) <= 1)%nat -> label_group cols k = [k].
Proof.
  unfold label_group. intros H.
  pose proof (filter_eqb_all k) as A. specialize (fun x => A x cols).
  destruct (filter (eqb k) cols) as [|x [|y g]]; simpl in *;
    [reflexivity | | lia].
  rewrite (A x) by (left; reflexivity). reflexivity.
Qed.

Lemma cell_group_single (cols : list pystr) (r : list cell) (k : pystr) :
  length r = length cols ->
  (length (filter (eqb k) cols) <= 1)%nat ->
  cell_group cols r k = [field cols r k].
Proof.
  unfold cell_group, field. intros Hlen H.
  rewrite <- (cells_of_length k cols r (eq_sym Hlen)) in H.
  destruct (cells_of k (combine cols r)) as [|v [|w g]]; simpl in *;
    [reflexivity | reflexivity | lia].
Qed.

Lemma unambiguous_check (df : DataFrame) :
  forallb (fun c =>
             Nat.leb (length (filter (eqb c) (columns (resolve_aliases df))))
                     1)
          REQUIRED = true ->
  unambiguous df.
Proof.
  intros H c Hc. rewrite forallb_forall in H.
  apply Nat.leb_le, H, Hc.
Qed.

(** C3 (as amended): for every table in which no canonical name ends up
    on two columns (after the header is cleaned and the aliases renamed),
    the resolver returns a table whose columns are exactly the nine
    canonical fields in the canonical order; each row holds, field after
    field, the cell of the column resolved to that field, or the empty
    string when no column resolves to it; every other column is dropped. *)
Theorem resolver_nine_fields (df : DataFrame) :
  rectangular df -> unambiguous df ->
  exists out,
    normalize_columns df = Some out
    /\ columns out = REQUIRED
    /\ rows out
       = map (fun r => map (field (columns (resolve_aliases df)) r) REQUIRED)
             (rows df).
Proof.
  intros Hrect Hun. rewrite normalize_columns_groups by assumption.
  eexists; split; [reflexivity|]. cbn [columns rows]. split.
  - rewrite <- (map_id REQUIRED) at 2.
    rewrite <- flat_map_singleton. apply flat_map_ext_In; intros k Hk.
    apply label_group_single, Hun, Hk.
  - apply map_ext_in; intros r Hr.
    rewrite <- flat_map_singleton. apply flat_map_ext_In; intros k Hk.
    apply cell_group_single; [|apply Hun, Hk].
    rewrite resolve_aliases_length.
    unfold rectangular in Hrect. rewrite Forall_forall in Hrect. auto.
Qed.

Lemma resolver_nine_fields_witness :
  rectangular answer_alias_table
  /\ unambiguous answer_alias_table
  /\ exists out,
       normalize_columns answer_alias_table = Some out
       /\ columns out = REQUIRED
       /\ rows out
          = map (fun r =>
                   map (field (columns (resolve_aliases answer_alias_table)) r)
                       REQUIRED)
                (rows answer_alias_table).
Proof.
  assert (R : rectangular answer_alias_table) by (repeat constructor).
  assert (U : unambiguous answer_alias_table)
    by (apply unambiguous_check; vm_compute; reflexivity).
  split; [exact R|]. split; [exact U|].
  exact (resolver_nine_fields answer_alias_table R U).
Defined.

(** C3 (as stated) fails on a header in which two names clean to the same
    canonical name: both columns are selected and the output has ten. *)
Lemma duplicated_header_gives_ten_columns :
  rectangular duplicated_question
  /\ exists out,
       normalize_columns duplicated_question = Some out
       /\ length (columns out) = 10%nat
       /\ columns out <> REQUIRED.
Proof.
  split; [repeat constructor|].
  eexists; split; [vm_compute; reflexivity|].
  split; [reflexivity | vm_compute; discriminate].
Qed.

(** C4 (as stated) fails on the same table: the later column does not
    overwrite the earlier one; the output carries "問題文" twice, with
    both values. *)
Lemma duplicated_header_keeps_both_values :
  exists out,
    normalize_columns duplicated_question = Some out
    /\ filter (eqb (u "問題文")) (columns out) = [u "問題文"; u "問題文"]
    /\ map (cells_of (u "問題文")) (iterrows out)
       = [[PyStr (u "x"); PyStr (u "y")]]
    /\ map (cells_of (u "問題文")) (iterrows out) <> [[PyStr (u "y")]].
Proof.
  eexists; split; [vm_compute; reflexivity|].
  split; [reflexivity|]. split; [reflexivity | vm_compute; discriminate].
Qed.

(* ================================================================= *)
(** ** The alias loop *)

Lemma freshb_fresh (x : pystr) (T : list (pystr * list pystr)) :
  freshb x T = true -> fresh x T.
Proof.
  unfold freshb, fresh. rewrite forallb_forall. intros H e He.
  specialize (H e He). apply andb_true_iff in H as [H1 H2].
  apply negb_true_iff in H1, H2.
  split; [apply eqb_neq | apply mem_not_In]; assumption.
Qed.

Lemma table_okb_ok (T : list (pystr * list pystr)) :
  table_okb T = true -> table_ok T.
Proof.
  induction T as [|e T IH]; simpl; [trivial|].
  rewrite !andb_true_iff, forallb_forall. intros [[H1 H2] H3].
  split; [apply freshb_fresh; assumption|].
  split; [intros a Ha; apply freshb_fresh, H2, Ha | apply IH, H3].
Qed.

Lemma ALIAS_ok : table_ok ALIAS.
Proof. apply table_okb_ok. vm_compute. reflexivity. Qed.

Lemma ALIAS_keys : map fst ALIAS = REQUIRED.
Proof. reflexivity. Qed.

Lemma alias_not_required (k a : pystr) (cs : list pystr) :
  In (k, cs) ALIAS -> In a cs -> ~ In a REQUIRED.
Proof.
  intros He Ha.
  assert (H : forallb (fun e => forallb (fun a => negb (mem a REQUIRED))
                                        (snd e)) ALIAS = true)
    by (vm_compute; reflexivity).
  rewrite forallb_forall in H. specialize (H _ He).
  rewrite forallb_forall in H. specialize (H _ Ha).
  apply negb_true_iff, mem_not_In in H. exact H.
Qed.

Lemma table_ok_functional (T : list (pystr * list pystr))
                          (k : pystr) (cs1 cs2 : list pystr) :
  table_ok T -> In (k, cs1) T -> In (k, cs2) T -> cs1 = cs2.
Proof.
  induction T as [|e T IH]; simpl; [contradiction|].
  intros (Hk & _ & Hok) [H1|H1] [H2|H2].
  - congruence.
  - subst e. destruct (Hk _ H2) as [N _]. simpl in N; congruence.
  - subst e. destruct (Hk _ H1) as [N _]. simpl in N; congruence.
  - auto.
Qed.

Lemma first_candidate_In (cs l : list pystr) (c : pystr) :
  first_candidate cs l = Some c -> In c cs /\ In c l.
Proof.
  induction cs as [|x cs IH]; simpl; [discriminate|].
  destruct (mem x l) eqn:M.
  - intros H; inversion H; subst. split; [tauto | apply mem_In, M].
  - intros H; apply IH in H; tauto.
Qed.

Lemma first_candidate_ext (cs l l' : list pystr) :
  (forall a, In a cs -> mem a l = mem a l') ->
  first_candidate cs l = first_candidate cs l'.
Proof.
  induction cs as [|x cs IH]; simpl; intros H; [reflexivity|].
  rewrite <- (H x) by tauto.
  destruct (mem x l); [reflexivity | apply IH; auto].
Qed.

Lemma first_candidate_only (cs l : list pystr) (a : pystr) :
  In a cs -> In a l -> (forall b, In b cs -> In b l -> b = a) ->
  first_candidate cs l = Some a.
Proof.
  induction cs as [|x cs IH]; simpl; intros Ha Hl Honly; [contradiction|].
  destruct (mem x l) eqn:M.
  - apply mem_In in M. f_equal. apply Honly; tauto.
  - apply mem_not_In in M. destruct Ha as [->|Ha]; [contradiction|].
    apply IH; auto.
Qed.

Lemma resolve_ext (T : list (pystr * list pystr)) (l l' : list pystr)
                  (x : pystr) :
  agree T l l' -> resolve T l x = resolve T l' x.
Proof.
  induction T as [|[k cs] T IH]; simpl; intros H; [reflexivity|].
  assert (HT : agree T l l') by (intros e He; apply H; right; assumption).
  destruct (H (k, cs) (or_introl eq_refl)) as [Hk Hcs]; simpl in *.
  rewrite <- Hk, <- (first_candidate_ext cs l l' Hcs), <- (IH HT).
  reflexivity.
Qed.

(** A name that is no alias of the table keeps its label. *)
Lemma resolve_not_alias (T : list (pystr * list pystr)) (l : list pystr)
                        (x : pystr) :
  (forall e, In e T -> ~ In x (snd e)) -> resolve T l x = x.
Proof.
  induction T as [|[k cs] T IH]; simpl; intros H; [reflexivity|].
  assert (E : resolve T l x = x) by (apply IH; intros; apply H; tauto).
  destruct (mem k l); [assumption|].
  destruct (first_candidate cs l) as [c|] eqn:F; [|assumption].
  destruct (eqb x c) eqn:Exc; [|assumption].
  apply eqb_eq in Exc; subst c. apply first_candidate_In in F as [F _].
  exfalso. apply (H (k, cs)); [left; reflexivity | exact F].
Qed.

(** A label either stays, or becomes the key of the entry whose first
    present alias it is. *)
Lemma resolve_cases (T : list (pystr * list pystr)) (l : list pystr)
                    (x : pystr) :
  resolve T l x = x
  \/ exists k cs,
       In (k, cs) T /\ mem k l = false
       /\ first_candidate cs l = Some x /\ resolve T l x = k.
Proof.
  induction T as [|[k cs] T IH]; simpl; [left; reflexivity|].
  assert (R : resolve T l x = x
              \/ exists k0 cs0,
                   (((k, cs) = (k0, cs0)) \/ In (k0, cs0) T)
                   /\ mem k0 l = false
                   /\ first_candidate cs0 l = Some x
                   /\ resolve T l x = k0).
  { destruct IH as [IH|(k0 & cs0 & H1 & H2 & H3 & H4)]; [left; assumption|].
    right; exists k0, cs0; tauto. }
  destruct (mem k l) eqn:M; [exact R|].
  destruct (first_candidate cs l) as [c|] eqn:F; [|exact R].
  destruct (eqb x c) eqn:Exc; [|exact R].
  apply eqb_eq in Exc; subst c.
  right; exists k, cs. tauto.
Qed.

Lemma resolve_hit (T : list (pystr * list pystr)) (l : list pystr)
                  (k a : pystr) (cs : list pystr) :
  table_ok T -> In (k, cs) T -> mem k l = false ->
  first_candidate cs l = Some a -> resolve T l a = k.
Proof.
  induction T as [|[k0 cs0] T IH]; simpl; [contradiction|].
  intros (Hk & Hcs & Hok) Hin M F.
  destruct Hin as [E|Hin].
  - inversion E; subst. rewrite M, F, eqb_refl. reflexivity.
  - specialize (IH Hok Hin M F).
    destruct (mem k0 l); [assumption|].
    destruct (first_candidate cs0 l) as [c|] eqn:F0; [|assumption].
    destruct (eqb a c) eqn:Eac; [|assumption].
    apply eqb_eq in Eac; subst c.
    apply first_candidate_In in F0 as [F0 _], F as [F _].
    destruct (Hcs a F0 (k, cs) Hin) as [_ N]. contradiction.
Qed.

Lemma mem_rename (x c k : pystr) (l : list pystr) :
  x <> c -> x <> k ->
  mem x (map (fun y => if eqb y c then k else y) l) = mem x l.
Proof.
  intros Hc Hk. induction l as [|y l IH]; simpl; [reflexivity|].
  rewrite IH. f_equal.
  destruct (eqb y c) eqn:E.
  - apply eqb_eq in E; subst y.
    apply eqb_neq in Hc, Hk. rewrite Hc, Hk; reflexivity.
  - reflexivity.
Qed.

(** The alias loop in closed form: every column is relabelled by
    [resolve], which reads the header as it was before the loop. *)
Lemma alias_loop_columns (T : list (pystr * list pystr)) :
  table_ok T ->
  forall (df : DataFrame) (colset : list pystr),
    agree T colset (columns df) ->
    columns (fst (fold_left alias_step T (df, colset)))
    = map (resolve T (columns df)) (columns df).
Proof.
  induction T as [|[k cs] T IH]; simpl; intros Hok df colset Hag.
  - symmetry; apply map_id.
  - destruct Hok as (Hk & Hcs & Hok).
    assert (HT : agree T colset (columns df))
      by (intros e He; apply Hag; right; assumption).
    destruct (Hag (k, cs) (or_introl eq_refl)) as [Mk Mcs]; simpl in *.
    rewrite <- Mk, <- (first_candidate_ext cs colset (columns df) Mcs).
    destruct (mem k colset) eqn:M; [apply IH; assumption|].
    destruct (first_candidate cs colset) as [c|] eqn:F;
      [|apply IH; assumption].
    apply first_candidate_In in F as [Fc _].
    assert (Hag' : agree T (columns (rename_columns c k df)) (columns df)).
    { intros e He. destruct (Hk e He) as [K1 K2].
      destruct (Hcs c Fc e He) as [C1 C2]. simpl. split.
      - apply mem_rename; congruence.
      - intros a Ha. apply mem_rename; intros ->; contradiction. }
    rewrite IH; [|assumption|].
    + simpl. rewrite map_map. apply map_ext; intros y.
      rewrite (resolve_ext T _ _ _ Hag').
      destruct (eqb y c); [|reflexivity].
      apply resolve_not_alias. intros e He. apply (Hk e He).
    + intros e He. destruct (HT e He) as [A1 A2].
      destruct (Hag' e He) as [B1 B2]. destruct (Hk e He) as [K1 K2].
      split.
      * rewrite B1. simpl. apply eqb_neq in K1. rewrite eqb_sym, K1.
        simpl. exact A1.
      * intros a Ha. rewrite (B2 a Ha). simpl.
        assert (N : a <> k) by (intros ->; contradiction).
        apply eqb_neq in N. rewrite N. simpl. apply A2, Ha.
Qed.

Lemma resolve_aliases_columns (df : DataFrame) :
  columns (resolve_aliases df) = map (resolve ALIAS (header df)) (header df).
Proof.
  unfold resolve_aliases.
  rewrite (alias_loop_columns ALIAS ALIAS_ok); [reflexivity|].
  intros e He; split; reflexivity.
Qed.

(* ================================================================= *)
(** ** Aliases and duplicated names *)

Lemma label_group_all (cols : list pystr) (k x : pystr) :
  In x (label_group cols k) -> x = k.
Proof.
  unfold label_group. pose proof (filter_eqb_all k x cols) as A.
  destruct (filter (eqb k) cols); [|exact A].
  intros [H|[]]; congruence.
Qed.

Lemma label_group_present (cols : list pystr) (k : pystr) :
  In k cols -> label_group cols k = filter (eqb k) cols.
Proof.
  intros H. unfold label_group. apply filter_eqb_present in H.
  destruct (filter (eqb k) cols); [congruence | reflexivity].
Qed.

Lemma cell_group_present (cols : list pystr) (r : list cell) (k : pystr) :
  length r = length cols -> In k cols ->
  cell_group cols r k = cells_of k (combine cols r).
Proof.
  intros Hlen H. unfold cell_group. apply filter_eqb_present in H.
  pose proof (cells_of_length k cols r (eq_sym Hlen)) as L.
  destruct (cells_of k (combine cols r)); [|reflexivity].
  destruct (filter (eqb k) cols); [congruence | discriminate].
Qed.

Lemma group_lengths (cols : list pystr) (r : list cell) (k : pystr) :
  length r = length cols ->
  length (label_group cols k) = length (cell_group cols r k).
Proof.
  intros Hlen. unfold label_group, cell_group.
  pose proof (cells_of_length k cols r (eq_sym Hlen)) as L.
  destruct (cells_of k (combine cols r)), (filter (eqb k) cols);
    simpl in *; congruence.
Qed.

Lemma cells_of_cons (k x : pystr) (v : cell) (s : Series) :
  cells_of k ((x, v) :: s)
  = if eqb k x then v :: cells_of k s else cells_of k s.
Proof.
  unfold cells_of; simpl. unfold labelled at 1; simpl.
  destruct (eqb k x); reflexivity.
Qed.

Lemma cells_of_relabel (f : pystr -> pystr) (k a : pystr)
                       (cols : list pystr) (r : list cell) :
  (forall y, In y cols -> (f y = k <-> y = a)) ->
  cells_of k (combine (map f cols) r) = cells_of a (combine cols r).
Proof.
  revert r; induction cols as [|y cols IH]; intros [|v r] H;
    try reflexivity.
  cbn [map combine]. rewrite !cells_of_cons.
  assert (E : eqb k (f y) = eqb a y).
  { destruct (eqb a y) eqn:Ea.
    - apply eqb_eq in Ea; subst y. apply eqb_eq. symmetry.
      apply H; [left|]; reflexivity.
    - apply eqb_neq. apply eqb_neq in Ea. intros Ek. apply Ea.
      symmetry. apply H; [left; reflexivity | congruence]. }
  rewrite E, IH by (intros; apply H; right; assumption). reflexivity.
Qed.

Lemma filter_relabel (f : pystr -> pystr) (c : pystr) (l : list pystr) :
  (forall y, In y l -> (f y = c <-> y = c)) ->
  filter (eqb c) (map f l) = filter (eqb c) l.
Proof.
  induction l as [|y l IH]; simpl; intros H; [reflexivity|].
  rewrite IH by (intros; apply H; right; assumption).
  destruct (eqb c y) eqn:E.
  - apply eqb_eq in E; subst y.
    assert (F : f c = c) by (apply H; [left|]; reflexivity).
    rewrite F, eqb_refl. reflexivity.
  - apply eqb_neq in E.
    assert (F : eqb c (f y) = false).
    { apply eqb_neq. intros Ek. apply E. symmetry.
      apply H; [left; reflexivity | congruence]. }
    rewrite F. reflexivity.
Qed.

(** The cells under a canonical name in the output of the resolver are
    the cells under it once the aliases are renamed. *)
Lemma resolved_cells_kept (df : DataFrame) (c : pystr) :
  rectangular df -> In c REQUIRED -> In c (columns (resolve_aliases df)) ->
  exists out,
    normalize_columns df = Some out
    /\ (forall x, In x (columns out) -> In x REQUIRED)
    /\ filter (eqb c) (columns out)
       = filter (eqb c) (columns (resolve_aliases df))
    /\ map (cells_of c) (iterrows out)
       = map (fun r => cells_of c (combine (columns (resolve_aliases df)) r))
             (rows df).
Proof.
  intros Hrect Hc Hin. rewrite normalize_columns_groups by assumption.
  eexists; split; [reflexivity|]. cbn [columns rows].
  set (cols := columns (resolve_aliases df)) in *.
  split; [|split].
  - intros x Hx. apply in_flat_map in Hx as (k & Hk & Hx).
    apply label_group_all in Hx; subst; assumption.
  - rewrite filter_groups;
      [apply label_group_present; assumption
      | intros k x; apply label_group_all
      | apply REQUIRED_NoDup | assumption].
  - unfold iterrows; cbn [columns rows]. rewrite !map_map.
    apply map_ext_in; intros r Hr.
    assert (Hlen : length r = length cols).
    { unfold cols. rewrite resolve_aliases_length.
      unfold rectangular in Hrect. rewrite Forall_forall in Hrect. auto. }
    rewrite cells_of_groups;
      [apply cell_group_present; assumption
      | intros; apply group_lengths; assumption
      | intros k x; apply label_group_all
      | apply REQUIRED_NoDup | assumption].
Qed.

(** C6: for every canonical field and every alias declared for it, on a
    table whose cleaned header has no column of the canonical name and in
    which that alias is the first of the field's aliases to occur, the
    resolver returns a table in which the canonical field holds, record
    after record, the cells of the aliased column, and in which no column
    bears the alias. *)
Theorem alias_round_trip (canon a : pystr) (cands : list pystr)
                         (df : DataFrame) :
  In (canon, cands) ALIAS ->
  rectangular df ->
  ~ In canon (header df) ->
  first_candidate cands (header df) = Some a ->
  exists out,
    normalize_columns df = Some out
    /\ In canon (columns out)
    /\ ~ In a (columns out)
    /\ map (cells_of canon) (iterrows out)
       = map (fun r => cells_of a (combine (header df) r)) (rows df).
Proof.
  intros He Hrect Hcanon F.
  pose proof (first_candidate_In _ _ _ F) as [Ha Hah].
  assert (Hreq : In canon REQUIRED).
  { rewrite <- ALIAS_keys. apply (in_map fst _ _ He). }
  assert (Hit : resolve ALIAS (header df) a = canon).
  { apply (resolve_hit ALIAS (header df) canon a cands ALIAS_ok He);
      [apply mem_not_In|]; assumption. }
  assert (Honly : forall y, In y (header df) ->
                    (resolve ALIAS (header df) y = canon <-> y = a)).
  { intros y Hy. split; [|intros ->; exact Hit].
    intros Hr.
    destruct (resolve_cases ALIAS (header df) y)
      as [E|(k & cs & Hk & _ & Fk & E)].
    - rewrite E in Hr; subst y; contradiction.
    - rewrite E in Hr; subst k.
      rewrite (table_ok_functional ALIAS canon cs cands ALIAS_ok Hk He) in Fk.
      congruence. }
  assert (Hin : In canon (columns (resolve_aliases df))).
  { rewrite resolve_aliases_columns, <- Hit. apply in_map; assumption. }
  destruct (resolved_cells_kept df canon Hrect Hreq Hin)
    as (out & Hout & Hsub & Hlab & Hcells).
  exists out. split; [exact Hout|]. split; [|split].
  - assert (Hne : filter (eqb canon) (columns out) <> []).
    { rewrite Hlab. apply filter_eqb_present; assumption. }
    destruct (In_dec_mem canon (columns out)) as [H|H]; [exact H|].
    apply filter_eqb_absent in H; contradiction.
  - intros H. apply Hsub in H.
    exact (alias_not_required canon a cands He Ha H).
  - rewrite Hcells. apply map_ext; intros r.
    rewrite resolve_aliases_columns. apply cells_of_relabel, Honly.
Qed.

Lemma alias_round_trip_witness :
  exists out,
    normalize_columns answer_alias_table = Some out
    /\ In (u "正解") (columns out)
    /\ ~ In (u "answer") (columns out)
    /\ map (cells_of (u "正解")) (iterrows out)
       = map (fun r => cells_of (u "answer")
                                (combine (header answer_alias_table) r))
             (rows answer_alias_table).
Proof.
  apply (alias_round_trip (u "正解") (u "answer")
           (map u ["解答"; "答え"; "ans"; "answer"]%string)
           answer_alias_table).
  - do 6 right; left; reflexivity.
  - repeat constructor.
  - apply mem_not_In; vm_compute; reflexivity.
  - vm_compute; reflexivity.
Defined.

(** Every alias of the table, put in the place of its canonical name in
    the canonical header, meets the conditions of [alias_round_trip]. *)
Lemma canonical_header_with_alias :
  forallb
    (fun e =>
       forallb
         (fun a =>
            let h := map (fun k => if eqb k (fst e) then a else k) REQUIRED in
            negb (mem (fst e) h)
            && match first_candidate (snd e) h with
               | Some b => eqb b a
               | None => false
               end)
         (snd e))
    ALIAS
  = true.
Proof. vm_compute. reflexivity. Qed.

(** C4 (as amended): when columns of the table clean to the same
    canonical name, the resolver keeps every one of them: the output has
    as many columns of that name as the cleaned header has, and each
    record holds the cells of all of them, in column order; no column
    overwrites another. *)
Theorem duplicate_columns_all_kept (c : pystr) (df : DataFrame) :
  In c REQUIRED ->
  rectangular df ->
  In c (header df) ->
  exists out,
    normalize_columns df = Some out
    /\ filter (eqb c) (columns out) = filter (eqb c) (header df)
    /\ map (cells_of c) (iterrows out)
       = map (fun r => cells_of c (combine (header df) r)) (rows df).
Proof.
  intros Hreq Hrect Hc.
  assert (Hkey : resolve ALIAS (header df) c = c).
  { apply resolve_not_alias. intros [k cs] He Hin; simpl in Hin.
    exact (alias_not_required k c cs He Hin Hreq). }
  assert (Honly : forall y, In y (header df) ->
                    (resolve ALIAS (header df) y = c <-> y = c)).
  { intros y Hy. split; [|intros ->; exact Hkey].
    intros Hr.
    destruct (resolve_cases ALIAS (header df) y)
      as [E|(k & cs & Hk & M & _ & E)].
    - congruence.
    - rewrite E in Hr; subst k. apply mem_not_In in M; contradiction. }
  assert (Hin : In c (columns (resolve_aliases df))).
  { rewrite resolve_aliases_columns, <- Hkey. apply in_map; assumption. }
  destruct (resolved_cells_kept df c Hrect Hreq Hin)
    as (out & Hout & _ & Hlab & Hcells).
  exists out. split; [exact Hout|]. split.
  - rewrite Hlab, resolve_aliases_columns. apply filter_relabel, Honly.
  - rewrite Hcells. apply map_ext; intros r.
    rewrite resolve_aliases_columns. apply cells_of_relabel, Honly.
Qed.

Lemma duplicate_columns_all_kept_witness :
  exists out,
    normalize_columns duplicated_question = Some out
    /\ filter (eqb (u "問題文")) (columns out)
       = filter (eqb (u "問題文")) (header duplicated_question)
    /\ map (cells_of (u "問題文")) (iterrows out)
       = map (fun r => cells_of (u "問題文")
                                (combine (header duplicated_question) r))
             (rows duplicated_question).
Proof.
  apply (duplicate_columns_all_kept (u "問題文") duplicated_question).
  - left; reflexivity.
  - repeat constructor.
  - left; reflexivity.
Defined.

(** A header whose cleaned names are pairwise distinct is unambiguous. *)
Lemma filter_relabel_unique (f : pystr -> pystr) (c : pystr)
                            (l : list pystr) :
  NoDup l ->
  (forall y y', In y l -> In y' l -> f y = c -> f y' = c -> y = y') ->
  (length (filter (eqb c) (map f l)) <= 1)%nat.
Proof.
  induction 1 as [|y l Hy Hnd IH]; simpl; intros Huniq; [lia|].
  assert (IH' : (length (filter (eqb c) (map f l)) <= 1)%nat).
  { apply IH. intros; apply Huniq; auto. }
  destruct (eqb c (f y)) eqn:E; [|exact IH'].
  apply eqb_eq in E.
  assert (N : filter (eqb c) (map f l) = []).
  { apply filter_eqb_absent. intros Hin.
    apply in_map_iff in Hin as (y' & Hf & Hy').
    assert (y = y') by (apply Huniq; auto; congruence).
    subst; contradiction. }
  rewrite N. simpl; lia.
Qed.

Lemma distinct_header_unambiguous (df : DataFrame) :
  NoDup (header df) -> unambiguous df.
Proof.
  intros Hnd c Hc. rewrite resolve_aliases_columns.
  apply filter_relabel_unique; [assumption|].
  intros y y' Hy Hy' E E'.
  destruct (resolve_cases ALIAS (header df) y)
    as [R|(k & cs & Hk & M & F & R)];
  destruct (resolve_cases ALIAS (header df) y')
    as [R'|(k' & cs' & Hk' & M' & F' & R')].
  - congruence.
  - exfalso. apply mem_not_In in M'. apply M'.
    replace k' with y by congruence. assumption.
  - exfalso. apply mem_not_In in M. apply M.
    replace k with y' by congruence. assumption.
  - assert (Ek : k' = k) by congruence.
    rewrite Ek in Hk'.
    rewrite (table_ok_functional ALIAS k cs cs' ALIAS_ok Hk Hk') in F.
    congruence.
Qed.

(* ================================================================= *)
(** ** The table converter *)

Lemma combine_map_both {A B C : Type} (f : A -> B) (g : A -> C)
                       (l : list A) :
  combine (map f l) (map g l) = map (fun x => (f x, g x)) l.
Proof. induction l; simpl; congruence. Qed.

Lemma Forall2_map_self {A B : Type} (R : A -> B -> Prop) (f : A -> B)
                       (l : list A) :
  (forall x, R x (f x)) -> Forall2 R l (map f l).
Proof. intros H; induction l; simpl; constructor; auto. Qed.

Lemma convert_step_eq (series_str : Series -> pystr) (numbering : pystr)
                       (add_labels add_meta : bool) (row : Series)
                       (fronts backs : list pystr) :
  convert_step series_str numbering add_labels add_meta
               (Some (fronts, backs)) row
  = Some
      (fronts ++ [fst (card_of series_str row numbering add_labels add_meta)],
       backs ++ [snd (card_of series_str row numbering add_labels add_meta)]).
Proof.
  unfold convert_step. cbn [bind].
  rewrite make_front_back_eq. reflexivity.
Qed.

Lemma convert_loop (series_str : Series -> pystr) (numbering : pystr)
                   (add_labels add_meta : bool) (rs : list Series)
                   (fronts backs : list pystr) :
  fold_left (convert_step series_str numbering add_labels add_meta) rs
            (Some (fronts, backs))
  = Some
      (fronts
         ++ map (fun row =>
                   fst (card_of series_str row numbering add_labels add_meta))
                rs,
       backs
         ++ map (fun row =>
                   snd (card_of series_str row numbering add_labels add_meta))
                rs).
Proof.
  revert fronts backs; induction rs as [|row rs IH]; intros fronts backs;
    cbn [fold_left map].
  - rewrite !app_nil_r; reflexivity.
  - rewrite convert_step_eq, IH, <- !app_assoc. reflexivity.
Qed.

(** [convert_df] never raises and maps [card_of] over the rows. *)
Lemma convert_df_eq (series_str : Series -> pystr) (df : DataFrame)
                    (numbering : pystr) (add_labels add_meta : bool) :
  convert_df series_str df numbering add_labels add_meta
  = Some
      (mkDataFrame
         [u "Front"; u "Back"]
         (map (fun row =>
                 [PyStr (fst (card_of series_str row numbering
                                      add_labels add_meta));
                  PyStr (snd (card_of series_str row numbering
                                      add_labels add_meta))])
              (iterrows df))).
Proof.
  unfold convert_df. rewrite convert_loop. cbn [bind fst snd app].
  unfold front_back_table. rewrite combine_map_both, map_map.
  reflexivity.
Qed.

(** C7: the converter returns one (Front, Back) row per record of the
    table, in the order of the records, each the card that the formatter
    makes of that record; so the row count is kept, and a table without
    rows gives a table without rows. *)
Theorem convert_one_card_per_record
    (series_str : Series -> pystr) (df : DataFrame) (numbering : pystr)
    (add_labels add_meta : bool) :
  exists out,
    convert_df series_str df numbering add_labels add_meta = Some out
    /\ columns out = [u "Front"; u "Back"]
    /\ len out = len df
    /\ Forall2
         (fun row card =>
            exists front back,
              make_front_back series_str row numbering add_labels add_meta
              = Some (front, back)
              /\ card = [PyStr front; PyStr back])
         (iterrows df) (rows out)
    /\ convert_df series_str (mkDataFrame (columns df) []) numbering
                  add_labels add_meta
       = Some (mkDataFrame [u "Front"; u "Back"] []).
Proof.
  rewrite convert_df_eq. eexists; split; [reflexivity|].
  cbn [columns rows]. split; [reflexivity|]. split; [|split].
  - unfold len, iterrows; cbn [rows]. rewrite !length_map. reflexivity.
  - apply Forall2_map_self. intros row.
    exists (fst (card_of series_str row numbering add_labels add_meta)),
           (snd (card_of series_str row numbering add_labels add_meta)).
    split; [|reflexivity].
    rewrite make_front_back_eq, <- surjective_pairing. reflexivity.
  - reflexivity.
Qed.

(** C8: no core operation raises.  [_clean] is defined on every string
    and on null; [normalize_columns] finds every key of its final
    selection, whatever the table; [make_front_back] finds a label for
    every choice it enumerates, whatever the record and the numbering;
    [convert_df] therefore returns a table for every table. *)
Theorem core_never_raises (series_str : Series -> pystr) :
  (forall v : cell, exists s, _clean v = s)
  /\ (forall df, exists out, normalize_columns df = Some out)
  /\ (forall row numbering,
        Forall (fun it => nth_error (labels_for numbering) (fst it) <> None)
               (enumerate (choices_of series_str row)))
  /\ (forall row numbering add_labels add_meta,
        exists card,
          make_front_back series_str row numbering add_labels add_meta
          = Some card)
  /\ (forall df numbering add_labels add_meta,
        exists out,
          convert_df series_str df numbering add_labels add_meta = Some out).
Proof.
  split; [intros v; eexists; reflexivity|].
  split; [intros df; rewrite normalize_columns_selects; eexists; reflexivity|].
  split.
  { intros row numbering. unfold labels_for.
    destruct (eqb numbering (u "ABC"));
      repeat (constructor; [discriminate|]); constructor. }
  split.
  - intros; rewrite make_front_back_eq; eexists; reflexivity.
  - intros; rewrite convert_df_eq; eexists; reflexivity.
Qed.

(* ================================================================= *)
(** ** The literals of the source *)

Example u_ascii : u "ABC" = [0x41; 0x42; 0x43].
Proof. reflexivity. Qed.

Example u_answer_label : u "正解: " = [0x6B63; 0x89E3; 0x3A; 0x20].
Proof. reflexivity. Qed.

Example u_fullwidth_space : u "　" = [0x3000].
Proof. reflexivity. Qed.

Example u_fullwidth_letter : u "選択肢Ａ" = [0x9078; 0x629E; 0x80A2; 0xFF21].
Proof. reflexivity. Qed.

(* ================================================================= *)
(** ** Normal forms of [_clean] *)

Section Stripping.

Variable p : char -> bool.

Lemma drop_while_head (s : pystr) (c : char) :
  hd_error (drop_while p s) = Some c -> p c = false.
Proof.
  induction s as [|x s IH]; simpl; [discriminate|].
  destruct (p x) eqn:P; [exact IH|].
  simpl. intros H; inversion H; subst; assumption.
Qed.

Lemma drop_while_id (s : pystr) :
  (forall c, hd_error s = Some c -> p c = false) -> drop_while p s = s.
Proof.
  destruct s as [|x s]; simpl; intros H; [reflexivity|].
  rewrite (H x eq_refl). reflexivity.
Qed.

Lemma drop_while_split (s : pystr) :
  exists pre, s = pre ++ drop_while p s /\ forallb p pre = true.
Proof.
  induction s as [|x s (pre & E & A)]; simpl.
  - exists []; split; reflexivity.
  - destruct (p x) eqn:P.
    + exists (x :: pre). simpl. rewrite P, A. split; [congruence | reflexivity].
    + exists []. split; reflexivity.
Qed.

Lemma drop_while_nil (s : pystr) :
  drop_while p s = [] <-> forallb p s = true.
Proof.
  induction s as [|x s IH]; simpl; [tauto|].
  destruct (p x); simpl; [exact IH|].
  split; discriminate.
Qed.

Lemma drop_while_In (s : pystr) (c : char) :
  In c (drop_while p s) -> In c s.
Proof.
  induction s as [|x s IH]; simpl; [tauto|].
  destruct (p x); [right; auto | simpl; tauto].
Qed.

Lemma strip_by_In (s : pystr) (c : char) : In c (strip_by p s) -> In c s.
Proof.
  unfold strip_by. intros H.
  apply in_rev, drop_while_In, in_rev, drop_while_In in H. exact H.
Qed.

Lemma hd_error_app (a b : pystr) (c : char) :
  hd_error a = Some c -> hd_error (a ++ b) = Some c.
Proof. destruct a; simpl; [discriminate | auto]. Qed.

(** What [strip_by] returns neither starts nor ends with a character
    of [p]. *)
Lemma strip_by_edges (s : pystr) : edges_fail p (strip_by p s).
Proof.
  unfold strip_by, edges_fail. split.
  - intros c H.
    destruct (drop_while_split (rev (drop_while p s))) as (pre & E & _).
    apply (f_equal (@rev char)) in E.
    rewrite rev_involutive, rev_app_distr in E.
    apply drop_while_head with (s := s). rewrite E.
    apply hd_error_app; assumption.
  - intros c. rewrite rev_involutive. apply drop_while_head.
Qed.

Lemma strip_by_id (s : pystr) : edges_fail p s -> strip_by p s = s.
Proof.
  intros [H1 H2]. unfold strip_by.
  rewrite (drop_while_id s H1), (drop_while_id (rev s) H2).
  apply rev_involutive.
Qed.

Lemma strip_by_nil (s : pystr) :
  strip_by p s = [] <-> forallb p s = true.
Proof.
  unfold strip_by. split.
  - intros H. apply (f_equal (@rev char)) in H.
    rewrite rev_involutive in H. simpl in H.
    apply drop_while_nil in H.
    destruct (drop_while p s) as [|x a] eqn:E;
      [apply drop_while_nil; assumption|].
    exfalso.
    assert (Px : p x = false)
      by (apply drop_while_head with (s := s); rewrite E; reflexivity).
    rewrite forallb_forall in H.
    rewrite (H x) in Px; [discriminate|].
    apply -> in_rev. left; reflexivity.
  - intros H. apply drop_while_nil in H. rewrite H. reflexivity.
Qed.

Variable keep : char -> bool.

Hypothesis deleted_trimmed : forall c, keep c = false -> p c = true.

Lemma filter_head_kept (s : pystr) (c : char) :
  (forall x, hd_error s = Some x -> p x = false) ->
  hd_error (filter keep s) = Some c -> p c = false.
Proof.
  destruct s as [|x s]; simpl; [discriminate|].
  intros H. specialize (H x eq_refl).
  destruct (keep x) eqn:K.
  - simpl. intros E; inversion E; subst; assumption.
  - rewrite (deleted_trimmed x K) in H; discriminate.
Qed.

Lemma filter_edges (s : pystr) :
  edges_fail p s -> edges_fail p (filter keep s).
Proof.
  intros [H1 H2]. split; intros c.
  - apply filter_head_kept; assumption.
  - rewrite <- (filter_rev_comm keep). apply filter_head_kept; assumption.
Qed.

Lemma filter_nil_edges (s : pystr) :
  edges_fail p s -> filter keep s = [] -> s = [].
Proof.
  intros [H1 _]. destruct s as [|x s]; simpl; [reflexivity|].
  specialize (H1 x eq_refl).
  destruct (keep x) eqn:K; [discriminate|].
  rewrite (deleted_trimmed x K) in H1; discriminate.
Qed.

End Stripping.

Lemma remove_char_In (c x : char) (s : pystr) :
  In x (remove_char c s) <-> In x s /\ x <> c.
Proof.
  unfold remove_char. rewrite filter_In, negb_true_iff, N.eqb_neq.
  reflexivity.
Qed.

Lemma remove_char_id (c : char) (s : pystr) :
  ~ In c s -> remove_char c s = s.
Proof.
  intros H. unfold remove_char. apply forallb_filter_id, forallb_forall.
  intros x Hx. apply negb_true_iff, N.eqb_neq. intros ->; contradiction.
Qed.

Lemma clean_str_clean_form (s : pystr) : clean_form (_clean (PyStr s)).
Proof.
  simpl. split; [|split].
  - intros H. apply remove_char_In in H as [H _].
    apply strip_by_In, remove_char_In in H. tauto.
  - intros H. apply remove_char_In in H. tauto.
  - apply filter_edges; [apply fullwidth_space_is_space|].
    apply strip_by_edges.
Qed.

Lemma clean_form_fixed (s : pystr) : clean_form s -> _clean (PyStr s) = s.
Proof.
  intros (B & F & E). simpl.
  rewrite (remove_char_id _ _ B). unfold strip.
  rewrite (strip_by_id _ _ E). apply remove_char_id, F.
Qed.

(** X1: [_clean] is idempotent: cleaning a cleaned value changes
    nothing. *)
Theorem clean_idempotent (v : cell) : _clean (PyStr (_clean v)) = _clean v.
Proof.
  destruct v as [|s]; [reflexivity|].
  apply clean_form_fixed, clean_str_clean_form.
Qed.

(** X2: whatever the value, [_clean] returns a string without byte-order
    mark, without full-width space, and without white space at its first
    and at its last position. *)
Theorem clean_gives_clean_form (v : cell) : clean_form (_clean v).
Proof.
  destruct v as [|s]; [|apply clean_str_clean_form].
  repeat split; simpl; try tauto; discriminate.
Qed.

(** X3: the strings that [_clean] returns unchanged are exactly those
    without byte-order mark, without full-width space and without white
    space at either end. *)
Theorem clean_fixed_points (s : pystr) :
  _clean (PyStr s) = s <-> clean_form s.
Proof.
  split; [|apply clean_form_fixed].
  intros E. rewrite <- E. apply clean_str_clean_form.
Qed.

(** X4: [_clean] returns the empty string exactly on the strings made of
    white space and byte-order marks only (the empty string among them);
    these are the cells that count as empty. *)
Theorem clean_empty_iff_blank (s : pystr) :
  _clean (PyStr s) = [] <-> forallb blank_char s = true.
Proof.
  simpl. split.
  - intros H.
    apply (filter_nil_edges is_space _ fullwidth_space_is_space) in H;
      [|apply strip_by_edges].
    apply strip_by_nil in H. rewrite forallb_forall in *.
    intros c Hc. unfold blank_char.
    destruct (c =? 0xFEFF) eqn:E; [apply orb_true_r|].
    rewrite orb_false_r. apply H, remove_char_In.
    split; [assumption | apply N.eqb_neq; assumption].
  - intros H.
    assert (A : strip (remove_char 0xFEFF s) = []).
    { apply strip_by_nil, forallb_forall. intros c Hc.
      apply remove_char_In in Hc as [Hc N].
      rewrite forallb_forall in H. specialize (H c Hc).
      unfold blank_char in H. apply N.eqb_neq in N. rewrite N in H.
      rewrite orb_false_r in H. exact H. }
    rewrite A. reflexivity.
Qed.

(* ================================================================= *)
(** ** More on the column resolver *)

Lemma header_cleaned (df : DataFrame) :
  header (set_columns (header df) df) = header df.
Proof.
  unfold header at 1. cbn [set_columns columns]. unfold header.
  rewrite map_map. apply map_ext; intros c.
  apply clean_form_fixed, clean_str_clean_form.
Qed.

(** X5: the byte-order marks, full-width spaces and surrounding white
    space of the column names play no part: the resolver gives the same
    table whether it receives the raw header or the header already
    cleaned by [_clean]. *)
Theorem header_noise_ignored (df : DataFrame) :
  normalize_columns (set_columns (header df) df) = normalize_columns df.
Proof.
  unfold normalize_columns, resolve_aliases.
  change (map (fun c => _clean (PyStr c))
              (columns (set_columns (header df) df)))
    with (header (set_columns (header df) df)).
  rewrite header_cleaned. reflexivity.
Qed.

Lemma clean_required (c : pystr) : In c REQUIRED -> _clean (PyStr c) = c.
Proof.
  intros H.
  assert (A : forallb (fun c => eqb (_clean (PyStr c)) c) REQUIRED = true)
    by (vm_compute; reflexivity).
  rewrite forallb_forall in A. apply eqb_eq, A, H.
Qed.

Lemma required_not_alias (c : pystr) (e : pystr * list pystr) :
  In c REQUIRED -> In e ALIAS -> ~ In c (snd e).
Proof.
  intros Hc He Hin. destruct e as [k cs].
  exact (alias_not_required k c cs He Hin Hc).
Qed.

Lemma label_group_nonempty (cols : list pystr) (k : pystr) :
  label_group cols k <> [].
Proof.
  unfold label_group. destruct (filter (eqb k) cols); discriminate.
Qed.

Lemma cell_group_nonempty (cols : list pystr) (r : list cell) (k : pystr) :
  cell_group cols r k <> [].
Proof.
  unfold cell_group. destruct (cells_of k (combine cols r)); discriminate.
Qed.

Lemma flat_map_length_eq {A B C : Type} (f : A -> list B) (g : A -> list C)
                         (l : list A) :
  (forall x, In x l -> length (f x) = length (g x)) ->
  length (flat_map f l) = length (flat_map g l).
Proof.
  induction l as [|a l IH]; simpl; intros H; [reflexivity|].
  rewrite !length_app, (H a), IH; auto.
Qed.

Lemma rectangular_row (df : DataFrame) (r : list cell) :
  rectangular df -> In r (rows df) -> length r = length (columns df).
Proof.
  unfold rectangular. rewrite Forall_forall. auto.
Qed.

(** A table laid out key after key carries its own groups. *)
Lemma grouped_fixed (cols : list pystr) (rs : list (list cell)) :
  (forall r, In r rs -> length r = length cols) ->
  let out :=
    mkDataFrame (flat_map (label_group cols) REQUIRED)
                (map (fun r => flat_map (cell_group cols r) REQUIRED) rs) in
  rectangular out
  /\ columns (resolve_aliases out) = columns out
  /\ (forall k, In k REQUIRED ->
        label_group (columns out) k = label_group cols k)
  /\ (forall r k, In r rs -> In k REQUIRED ->
        cell_group (columns out) (flat_map (cell_group cols r) REQUIRED) k
        = cell_group cols r k).
Proof.
  intros Hlen out.
  assert (Hsub : forall x, In x (columns out) -> In x REQUIRED).
  { intros x Hx. apply in_flat_map in Hx as (k & Hk & Hx).
    apply label_group_all in Hx; subst; assumption. }
  assert (Hfilter : forall k, In k REQUIRED ->
            filter (eqb k) (columns out) = label_group cols k).
  { intros k Hk. apply filter_groups;
      [intros k' x; apply label_group_all | apply REQUIRED_NoDup | exact Hk]. }
  assert (Hcells : forall r k, In r rs -> In k REQUIRED ->
            cells_of k (combine (columns out)
                                (flat_map (cell_group cols r) REQUIRED))
            = cell_group cols r k).
  { intros r k Hr Hk. apply cells_of_groups;
      [intros; apply group_lengths, Hlen, Hr
      | intros k' x; apply label_group_all
      | apply REQUIRED_NoDup | exact Hk]. }
  split; [|split; [|split]].
  - unfold rectangular. apply Forall_forall. intros r' Hr'.
    apply in_map_iff in Hr' as (r & <- & Hr). cbn [columns out].
    symmetry. apply flat_map_length_eq.
    intros; apply group_lengths, Hlen, Hr.
  - rewrite resolve_aliases_columns.
    assert (Hh : header out = columns out).
    { unfold header. rewrite <- (map_id (columns out)) at 2.
      apply map_ext_in. intros c Hc. apply clean_required, Hsub, Hc. }
    rewrite Hh. rewrite <- (map_id (columns out)) at 3.
    apply map_ext_in. intros c Hc. apply resolve_not_alias.
    intros e He. apply required_not_alias; [apply Hsub, Hc | exact He].
  - intros k Hk. unfold label_group at 1. rewrite (Hfilter k Hk).
    pose proof (label_group_nonempty cols k).
    destruct (label_group cols k); [congruence | reflexivity].
  - intros r k Hr Hk. unfold cell_group at 1. rewrite (Hcells r k Hr Hk).
    pose proof (cell_group_nonempty cols r k).
    destruct (cell_group cols r k); [congruence | reflexivity].
Qed.

Lemma grouped_resolved (cols : list pystr) (rs : list (list cell)) :
  (forall r, In r rs -> length r = length cols) ->
  let out :=
    mkDataFrame (flat_map (label_group cols) REQUIRED)
                (map (fun r => flat_map (cell_group cols r) REQUIRED) rs) in
  normalize_columns out = Some out.
Proof.
  intros Hlen out.
  destruct (grouped_fixed cols rs Hlen) as (R & C & L & G).
  fold out in R, C, L, G.
  rewrite (normalize_columns_groups out R), C.
  assert (EL : flat_map (label_group (columns out)) REQUIRED = columns out).
  { apply flat_map_ext_In. intros k Hk. apply L, Hk. }
  assert (ER : map (fun r => flat_map (cell_group (columns out) r) REQUIRED)
                   (rows out)
               = rows out).
  { unfold out at 2 3. cbn [rows]. rewrite map_map.
    apply map_ext_in. intros r Hr.
    apply flat_map_ext_In. intros k Hk. apply G; assumption. }
  rewrite EL, ER. reflexivity.
Qed.

(** X6: the resolver is idempotent: resolving a table that the resolver
    returned gives the same table again. *)
Theorem normalize_columns_idempotent (df out : DataFrame) :
  rectangular df ->
  normalize_columns df = Some out ->
  normalize_columns out = Some out.
Proof.
  intros Hrect. rewrite normalize_columns_groups by assumption.
  intros E.
  assert (E' : out
               = mkDataFrame
                   (flat_map (label_group (columns (resolve_aliases df)))
                             REQUIRED)
                   (map (fun r =>
                           flat_map
                             (cell_group (columns (resolve_aliases df)) r)
                             REQUIRED)
                        (rows df))) by congruence.
  rewrite E'. apply grouped_resolved.
  intros r Hr. rewrite resolve_aliases_length.
  apply rectangular_row; assumption.
Qed.

Lemma normalize_columns_idempotent_witness :
  exists out,
    normalize_columns answer_alias_table = Some out
    /\ normalize_columns out = Some out.
Proof.
  eexists. split; [vm_compute; reflexivity|].
  apply (normalize_columns_idempotent answer_alias_table).
  - repeat constructor.
  - vm_compute; reflexivity.
Defined.

(** X7: for every table the resolver returns a table with as many rows
    as the input, whose column names are canonical names, every canonical
    name among them. *)
Theorem resolver_keeps_rows_and_names (df : DataFrame) :
  exists out,
    normalize_columns df = Some out
    /\ len out = len df
    /\ (forall x, In x (columns out) <-> In x REQUIRED).
Proof.
  rewrite normalize_columns_selects. cbv zeta.
  eexists; split; [reflexivity|]. split.
  - unfold len; cbn [rows]. apply length_map.
  - intros x. cbn [columns]. rewrite in_flat_map. split.
    + intros (k & Hk & Hx). apply filter_eqb_all in Hx; subst; assumption.
    + intros Hx. exists x. split; [assumption|].
      apply filter_In. split; [|apply eqb_refl].
      apply missing_complete; assumption.
Qed.

(** A column whose cleaned name is neither a canonical name nor an alias
    of the table. *)
Lemma agree_unknown (h : list pystr) (x : pystr) :
  ~ In x REQUIRED -> (forall e, In e ALIAS -> ~ In x (snd e)) ->
  agree ALIAS (h ++ [x]) h.
Proof.
  intros Hreq Hal.
  assert (M : forall y, y <> x -> mem y (h ++ [x]) = mem y h).
  { intros y Hy. unfold mem. rewrite existsb_app. simpl.
    apply eqb_neq in Hy. rewrite Hy. rewrite !orb_false_r. reflexivity. }
  intros e He. split.
  - apply M. intros E. apply Hreq. rewrite <- E, <- ALIAS_keys.
    apply in_map; assumption.
  - intros a Ha. apply M. intros ->. exact (Hal e He Ha).
Qed.

Lemma map_fst_combine {A B : Type} (l : list A) (l' : list B) :
  length l = length l' -> map fst (combine l l') = l.
Proof.
  revert l'; induction l as [|a l IH]; intros [|b l'] H; simpl in *;
    try discriminate; auto.
  f_equal; apply IH; lia.
Qed.

(** X8: a column that the resolver does not know (its cleaned name is no
    canonical name and no alias) is ignored: the table with such a column
    added at the end resolves to the same table as without it, whatever
    the cells of the column. *)
Theorem unknown_column_ignored (df : DataFrame) (x : pystr)
                               (vs : list cell) :
  rectangular df ->
  length vs = len df ->
  ~ In (_clean (PyStr x)) REQUIRED ->
  (forall e, In e ALIAS -> ~ In (_clean (PyStr x)) (snd e)) ->
  normalize_columns
    (mkDataFrame (columns df ++ [x])
                 (map (fun rv => fst rv ++ [snd rv]) (combine (rows df) vs)))
  = normalize_columns df.
Proof.
  intros Hrect Hvs Hreq Hal.
  set (x' := _clean (PyStr x)) in *.
  set (df' := mkDataFrame _ _).
  assert (Hrect' : rectangular df').
  { unfold rectangular, df'. cbn [columns rows]. apply Forall_forall.
    intros r Hr. apply in_map_iff in Hr as ([r0 v] & <- & Hin).
    apply in_combine_l in Hin. cbn [fst snd].
    rewrite !length_app. simpl.
    rewrite (rectangular_row df r0 Hrect Hin). reflexivity. }
  assert (Hh : header df' = header df ++ [x']).
  { unfold header, df'. cbn [columns]. rewrite map_app. reflexivity. }
  assert (Hcols : columns (resolve_aliases df')
                  = columns (resolve_aliases df) ++ [x']).
  { rewrite !resolve_aliases_columns, Hh, map_app. cbn [map]. f_equal.
    - apply map_ext. intros y. apply resolve_ext, agree_unknown; assumption.
    - f_equal. apply resolve_not_alias; assumption. }
  rewrite (normalize_columns_groups df' Hrect'),
          (normalize_columns_groups df Hrect), Hcols.
  set (cols := columns (resolve_aliases df)).
  assert (Hk : forall k, In k REQUIRED -> eqb k x' = false).
  { intros k Hin. apply eqb_neq. intros ->. contradiction. }
  f_equal. f_equal.
  - apply flat_map_ext_In. intros k Hin. unfold label_group.
    rewrite filter_app. simpl. rewrite (Hk k Hin), app_nil_r. reflexivity.
  - unfold df'. cbn [rows]. rewrite map_map.
    rewrite <- (map_fst_combine (rows df) vs) at 2
      by (symmetry; exact Hvs).
    rewrite map_map. apply map_ext_in. intros [r v] Hin.
    apply in_combine_l in Hin. cbn [fst snd].
    apply flat_map_ext_In. intros k Hkin. unfold cell_group.
    rewrite combine_app_eq, cells_of_app.
    + simpl. rewrite cells_of_cons, (Hk k Hkin), app_nil_r. reflexivity.
    + unfold cols. rewrite resolve_aliases_length.
      symmetry. apply rectangular_row; assumption.
Qed.

Lemma unknown_column_ignored_witness :
  normalize_columns
    (mkDataFrame (columns duplicated_question ++ [u " memo "])
                 (map (fun rv => fst rv ++ [snd rv])
                      (combine (rows duplicated_question) [PyStr (u "z")])))
  = normalize_columns duplicated_question.
Proof.
  apply (unknown_column_ignored duplicated_question (u " memo ")
           [PyStr (u "z")]).
  - repeat constructor.
  - reflexivity.
  - apply mem_not_In; vm_compute; reflexivity.
  - intros e He.
    assert (A : forallb (fun e => negb (mem (_clean (PyStr (u " memo ")))
                                            (snd e))) ALIAS = true)
      by (vm_compute; reflexivity).
    rewrite forallb_forall in A.
    apply mem_not_In, negb_true_iff, A, He.
Defined.

(* ================================================================= *)
(** ** More on the card formatter *)

Lemma filter_labelled_absent (k : pystr) (row : Series) :
  ~ In k (map fst row) -> filter (labelled k) row = [].
Proof.
  induction row as [|[l v] row IH]; simpl; intros H; [reflexivity|].
  unfold labelled at 1; simpl.
  destruct (eqb k l) eqn:E.
  - apply eqb_eq in E; subst; tauto.
  - apply IH; tauto.
Qed.

Lemma clean_field_extended (series_str : Series -> pystr) (row : Series)
                           (k : pystr) (v : cell) (key : string) :
  ~ In k (map fst row) -> _clean v = [] ->
  clean_field series_str (row ++ [(k, v)]) key
  = clean_field series_str row key.
Proof.
  intros Hk Hv. unfold clean_field, series_get.
  rewrite filter_app. simpl. unfold labelled at 2; simpl.
  destruct (eqb (u key) k) eqn:E.
  - apply eqb_eq in E. rewrite E.
    rewrite (filter_labelled_absent k row Hk). simpl. exact Hv.
  - rewrite app_nil_r. reflexivity.
Qed.

(** X9: for the formatter a field that is missing from the record, a
    field that holds [None] and a field that holds a blank string are the
    same: adding such a field to a record that lacks it leaves Front and
    Back unchanged. *)
Theorem missing_field_is_empty_field
    (series_str : Series -> pystr) (row : Series) (k : pystr) (v : cell)
    (numbering : pystr) (add_labels add_meta : bool) :
  ~ In k (map fst row) ->
  _clean v = [] ->
  make_front_back series_str (row ++ [(k, v)]) numbering add_labels add_meta
  = make_front_back series_str row numbering add_labels add_meta.
Proof.
  intros Hk Hv. rewrite !make_front_back_eq.
  unfold card_of, choices_of.
  rewrite !(clean_field_extended series_str row k v) by assumption.
  reflexivity.
Qed.

Lemma missing_field_is_empty_field_witness :
  make_front_back (fun _ => []) ([(u "問題文", PyStr (u "Q"))]
                                   ++ [(u "正解", PyStr (u " 　 "))])
                  (u "ABC") true true
  = make_front_back (fun _ => []) [(u "問題文", PyStr (u "Q"))]
                    (u "ABC") true true.
Proof.
  apply (missing_field_is_empty_field (fun _ => [])
           [(u "問題文", PyStr (u "Q"))] (u "正解") (PyStr (u " 　 "))).
  - apply mem_not_In; vm_compute; reflexivity.
  - vm_compute; reflexivity.
Defined.

Lemma positional_lines_blank (labels choices : list pystr) :
  Forall (fun c => c = []) choices -> positional_lines labels choices = [].
Proof.
  intros H. revert labels.
  induction H as [|c cs -> _ IH]; intros [|l ls]; simpl; auto.
Qed.

(** X10: when the five choices of a record are missing or blank, Front is
    the normalized question and nothing else: no blank line, no
    choice section. *)
Theorem front_without_choices
    (series_str : Series -> pystr) (row : Series) (numbering : pystr)
    (add_labels add_meta : bool) :
  Forall (fun c => c = []) (choices_of series_str row) ->
  exists back,
    make_front_back series_str row numbering add_labels add_meta
    = Some (clean_field series_str row "問題文", back).
Proof.
  intros H. rewrite make_front_back_eq. unfold card_of.
  rewrite (positional_lines_blank _ _ H). eexists. reflexivity.
Qed.

Lemma front_without_choices_witness :
  exists back,
    make_front_back (fun _ => [])
                    (record "What is 2+2?" "" " " "　" "" "" "4" "" "")
                    (u "ABC") true false
    = Some (u "What is 2+2?", back).
Proof.
  apply (front_without_choices (fun _ => [])
           (record "What is 2+2?" "" " " "　" "" "" "4" "" "")
           (u "ABC") true false).
  repeat constructor.
Defined.

(** X11: Back is the answer part followed by the metadata block, and the
    block leaves no dangling separator: it is absent when the metadata
    are switched off or when subject and link are both blank, and it
    holds the blank line and the one non-blank value when the other is
    blank. *)
Theorem back_metadata_block
    (series_str : Series -> pystr) (row : Series) (numbering : pystr)
    (add_labels add_meta : bool) :
  exists front,
    make_front_back series_str row numbering add_labels add_meta
    = Some (front,
            labelled_answer add_labels (clean_field series_str row "正解")
              ++ (if add_meta
                  then metadata_block (clean_field series_str row "科目分類")
                                      (clean_field series_str row "リンクURL")
                  else [])).
Proof.
  rewrite make_front_back_eq. unfold card_of. eexists. f_equal. f_equal.
  destruct add_meta; [|rewrite app_nil_r; reflexivity].
  destruct (clean_field series_str row "科目分類") as [|a s],
           (clean_field series_str row "リンクURL") as [|b l]; simpl;
    try reflexivity.
  rewrite app_nil_r; reflexivity.
Qed.

Lemma markless_app (a b : pystr) :
  markless (a ++ b) = markless a && markless b.
Proof. apply forallb_app. Qed.

Lemma clean_markless (v : cell) : markless (_clean v) = true.
Proof.
  destruct v as [|s]; [reflexivity|].
  destruct (clean_str_clean_form s) as (B & F & _).
  apply forallb_forall. intros c Hc.
  apply andb_true_iff; split; apply negb_true_iff, N.eqb_neq;
    intros ->; contradiction.
Qed.

Lemma join_markless (parts : list pystr) :
  forallb markless parts = true -> markless (join nl parts) = true.
Proof.
  induction parts as [|p [|q parts] IH]; simpl; intros H; auto.
  - rewrite andb_true_r in H. exact H.
  - apply andb_true_iff in H as [H1 H2].
    rewrite markless_app, H1. simpl. apply IH. exact H2.
Qed.

Lemma positional_lines_markless (labels choices : list pystr) :
  forallb markless labels = true -> forallb markless choices = true ->
  forallb markless (positional_lines labels choices) = true.
Proof.
  revert choices; induction labels as [|l ls IH]; intros [|c cs];
    try reflexivity.
  cbn [forallb positional_lines]. intros Hl Hc.
  apply andb_true_iff in Hl as [Hl Hls], Hc as [Hc Hcs].
  destruct (truthy c); [|auto].
  cbn [forallb]. rewrite IH by assumption.
  rewrite !markless_app, Hl, Hc. reflexivity.
Qed.

Lemma labels_for_markless (numbering : pystr) :
  forallb markless (labels_for numbering) = true.
Proof. unfold labels_for. destruct (eqb _ _); reflexivity. Qed.

(** X12: no byte-order mark and no full-width space ever reaches a card:
    whatever the record and the options, Front and Back are free of
    both. *)
Theorem cards_are_markless
    (series_str : Series -> pystr) (row : Series) (numbering : pystr)
    (add_labels add_meta : bool) :
  exists front back,
    make_front_back series_str row numbering add_labels add_meta
    = Some (front, back)
    /\ markless front = true /\ markless back = true.
Proof.
  rewrite make_front_back_eq. unfold card_of. do 2 eexists.
  split; [reflexivity|].
  assert (F : forall key, markless (clean_field series_str row key) = true)
    by (intros; apply clean_markless).
  split.
  - assert (L : forallb markless
                  (positional_lines (labels_for numbering)
                                    (choices_of series_str row)) = true).
    { apply positional_lines_markless; [apply labels_for_markless|].
      unfold choices_of. simpl. rewrite !F. reflexivity. }
    unfold front_of.
    destruct (positional_lines _ _) as [|p ps] eqn:E; [apply F|].
    rewrite !markless_app, F, (join_markless _ L). reflexivity.
  - assert (B : markless (labelled_answer add_labels
                            (clean_field series_str row "正解")) = true).
    { unfold labelled_answer. destruct add_labels; [|apply F].
      rewrite markless_app, F. reflexivity. }
    cbv zeta. destruct add_meta; [|exact B].
    destruct (truthy _); [|exact B].
    assert (H : forall l, forallb markless l = true ->
                  forallb markless (filter truthy l) = true).
    { intros l Hl. rewrite forallb_forall in *. intros x Hx.
      apply filter_In in Hx as [Hx _]. auto. }
    rewrite !markless_app, B, join_markless; [reflexivity|].
    apply H. cbn [forallb]. rewrite !F. reflexivity.
Qed.

(* ================================================================= *)
(** ** The script around the functions *)




Lemma nine_fields_eq (df : DataFrame) :
  rectangular df -> unambiguous df ->
  normalize_columns df
  = Some (mkDataFrame
            REQUIRED
            (map (fun r =>
                    map (field (columns (resolve_aliases df)) r) REQUIRED)
                 (rows df))).
Proof.
  intros Hrect Hun. rewrite normalize_columns_groups by assumption.
  f_equal. f_equal.
  - rewrite <- (map_id REQUIRED) at 2.
    rewrite <- flat_map_singleton. apply flat_map_ext_In; intros k Hk.
    apply label_group_single, Hun, Hk.
  - apply map_ext_in; intros r Hr.
    rewrite <- flat_map_singleton. apply flat_map_ext_In; intros k Hk.
    apply cell_group_single; [|apply Hun, Hk].
    rewrite resolve_aliases_length. apply rectangular_row; assumption.
Qed.

Lemma script_unambiguous
    (series_str : Series -> pystr) (df : DataFrame) (numbering : pystr)
    (add_labels add_meta : bool) :
  rectangular df -> unambiguous df ->
  script series_str df numbering add_labels add_meta
  = Some
      (Converted
         (mkDataFrame
            [u "Front"; u "Back"]
            (map (fun r =>
                    let card :=
                      card_of series_str
                        (combine REQUIRED
                           (map (field (columns (resolve_aliases df)) r)
                                REQUIRED))
                        numbering add_labels add_meta in
                    [PyStr (fst card); PyStr (snd card)])
                 (rows df)))).
Proof.
  intros Hrect Hun. unfold script.
  rewrite (nine_fields_eq df Hrect Hun). cbn [bind columns].
  replace (filter (fun c => negb (mem c REQUIRED)) REQUIRED) with (@nil pystr)
    by reflexivity.
  rewrite convert_df_eq. cbn [bind]. unfold iterrows. cbn [columns rows].
  rewrite !map_map. reflexivity.
Qed.

Lemma filter_labelled_unique (k : pystr) (row : Series) :
  NoDup (map fst row) ->
  filter (labelled k) row = [] \/ exists lv, filter (labelled k) row = [lv].
Proof.
  induction row as [|[l v] row IH]; simpl; intros H; [left; reflexivity|].
  inversion H as [|? ? Hl Hnd]; subst.
  destruct (labelled k (l, v)) eqn:E.
  - unfold labelled in E; simpl in E. apply eqb_eq in E; subst l.
    right. exists (k, v).
    rewrite (filter_labelled_absent k row Hl). reflexivity.
  - apply IH, Hnd.
Qed.

Lemma NoDup_labels_combine (l : list pystr) (vs : list cell) :
  NoDup l -> NoDup (map fst (combine l vs)).
Proof.
  intros H. revert vs.
  induction H as [|a l Ha Hnd IH]; intros [|v vs]; simpl; try constructor.
  - intros Hin. apply in_map_iff in Hin as ([a' v'] & E & Hin).
    simpl in E; subst a'. apply in_combine_l in Hin. contradiction.
  - apply IH.
Qed.

Lemma clean_field_unique (s1 s2 : Series -> pystr) (row : Series)
                         (key : string) :
  NoDup (map fst row) -> clean_field s1 row key = clean_field s2 row key.
Proof.
  intros H. unfold clean_field, series_get.
  destruct (filter_labelled_unique (u key) row H) as [E|(lv & E)];
    rewrite E; reflexivity.
Qed.

(** X14: when no canonical name ends up on two columns, the cards of the
    script do not depend on how pandas would render a series: the
    formatter only ever meets single cells. *)
Theorem script_reads_cells_only
    (s1 s2 : Series -> pystr) (df : DataFrame) (numbering : pystr)
    (add_labels add_meta : bool) :
  rectangular df -> unambiguous df ->
  script s1 df numbering add_labels add_meta
  = script s2 df numbering add_labels add_meta.
Proof.
  intros Hrect Hun. rewrite !script_unambiguous by assumption.
  apply (f_equal (fun rs => Some (Converted (mkDataFrame _ rs)))).
  apply map_ext. intros r. cbv zeta.
  set (row := combine REQUIRED _).
  assert (Hrow : NoDup (map fst row))
    by (apply NoDup_labels_combine, REQUIRED_NoDup).
  unfold card_of, choices_of.
  rewrite !(clean_field_unique s1 s2 row) by exact Hrow.
  reflexivity.
Qed.

Lemma script_reads_cells_only_witness :
  script (fun _ => []) answer_alias_table (u "ABC") true true
  = script (fun _ => u "?") answer_alias_table (u "ABC") true true.
Proof.
  apply (script_reads_cells_only (fun _ => []) (fun _ => u "?")
           answer_alias_table (u "ABC") true true).
  - repeat constructor.
  - apply unambiguous_check; vm_compute; reflexivity.
Defined.

Lemma blank_card (series_str : Series -> pystr) (numbering : pystr)
                 (add_labels add_meta : bool) :
  card_of series_str (combine REQUIRED (map (fun _ => PyStr []) REQUIRED))
          numbering add_labels add_meta
  = ([], labelled_answer add_labels []).
Proof.
  unfold card_of, labels_for.
  destruct (eqb numbering (u "ABC")), add_labels, add_meta; reflexivity.
Qed.

(** X15: a table whose header names nothing that the resolver knows (no
    cleaned name is a canonical name or an alias) is converted all the
    same: every card has an empty Front and a Back that holds the answer
    label, if switched on, and nothing else. *)
Theorem foreign_header_gives_blank_cards
    (series_str : Series -> pystr) (df : DataFrame) (numbering : pystr)
    (add_labels add_meta : bool) :
  rectangular df ->
  (forall x, In x (header df) ->
     ~ In x REQUIRED /\ forall e, In e ALIAS -> ~ In x (snd e)) ->
  script series_str df numbering add_labels add_meta
  = Some
      (Converted
         (mkDataFrame
            [u "Front"; u "Back"]
            (map (fun _ => [PyStr []; PyStr (labelled_answer add_labels [])])
                 (rows df)))).
Proof.
  intros Hrect Hforeign.
  assert (Hcols : columns (resolve_aliases df) = header df).
  { rewrite resolve_aliases_columns.
    rewrite <- (map_id (header df)) at 3.
    apply map_ext_in. intros x Hx. apply resolve_not_alias.
    apply (Hforeign x Hx). }
  assert (Habs : forall k, In k REQUIRED ->
                   ~ In k (columns (resolve_aliases df))).
  { intros k Hk Hin. rewrite Hcols in Hin.
    destruct (Hforeign k Hin) as [N _]. contradiction. }
  assert (Hun : unambiguous df).
  { intros k Hk. rewrite (filter_eqb_absent _ _ (Habs k Hk)). simpl; lia. }
  rewrite (script_unambiguous series_str df numbering add_labels add_meta
             Hrect Hun).
  apply (f_equal (fun rs => Some (Converted (mkDataFrame _ rs)))).
  apply map_ext. intros r. cbv zeta.
  assert (E : map (field (columns (resolve_aliases df)) r) REQUIRED
              = map (fun _ => PyStr []) REQUIRED).
  { apply map_ext_in. intros k Hk. unfold field.
    rewrite (cells_of_absent _ _ r (Habs k Hk)). reflexivity. }
  rewrite E, blank_card. reflexivity.
Qed.

Lemma foreign_header_gives_blank_cards_witness :
  script (fun _ => []) foreign_table (u "123") true true
  = Some
      (Converted
         (mkDataFrame
            [u "Front"; u "Back"]
            (map (fun _ => [PyStr []; PyStr (labelled_answer true [])])
                 (rows foreign_table)))).
Proof.
  apply (foreign_header_gives_blank_cards (fun _ => []) foreign_table
           (u "123") true true).
  - repeat constructor.
  - assert (A : forallb
                  (fun x =>
                     negb (mem x REQUIRED)
                     && forallb (fun e => negb (mem x (snd e))) ALIAS)
                  (header foreign_table) = true)
      by (vm_compute; reflexivity).
    rewrite forallb_forall in A. intros x Hx.
    specialize (A x Hx). apply andb_true_iff in A as [A1 A2].
    split; [apply mem_not_In, negb_true_iff, A1|].
    rewrite forallb_forall in A2. intros e He.
    apply mem_not_In, negb_true_iff, A2, He.
Defined.
